(** * feudal_networks: the trajectory pipeline of [feudal_policy_optimizer.py]

    A shallow embedding of [discount], [process_rollout], [PartialRollout],
    [RunnerThread], [env_runner] and
    [FeudalPolicyOptimizer.pull_batch_from_queue].

    Conventions of the embedding:
    - a numpy [float64] is idealised as a real number ([R]), so that the
      arithmetic of the discounted sums is exact;
    - a numpy array is the list of its entries, and [np.asarray] of a Python
      list is that list;
    - a Python call that can raise returns an [outcome];
    - the two threads of the program (the runner and the optimizer) are the
      two components of a transition system whose steps are chosen by a
      scheduler. *)

From Stdlib Require Import List Bool Arith Lia Reals Lra.
Import ListNotations.

Local Open Scope R_scope.

(** ** Python exceptions *)

(** The exceptions this file can raise: [assert] failing, and the two
    exceptions of the standard [queue] module. *)
Inductive exn : Type :=
| AssertionError
| Empty
| Full.

Inductive outcome (A : Type) : Type :=
| Returns (a : A)
| Raises (e : exn).

Arguments Returns {A} a.
Arguments Raises {A} e.

Definition bind {A B : Type} (o : outcome A) (k : A -> outcome B) : outcome B :=
  match o with
  | Returns a => k a
  | Raises e => Raises e
  end.

Notation "x <- c ;; k" := (bind c (fun x => k))
  (at level 61, c at next level, right associativity).

Definition raises {A : Type} (o : outcome A) : Prop :=
  exists e, o = Raises e.

Definition returns {A : Type} (o : outcome A) : Prop :=
  exists a, o = Returns a.

(** ** Arrays *)

Definition ndarray : Type := list R.

(** [x[:-1]] *)
Definition drop_last {A : Type} (x : list A) : list A := removelast x.

(** ** discount *)

(** [scipy.signal.lfilter([1], [1, a1], x)] with the zero initial state: the
    documented difference equation [y[k] = x[k] - a1 * y[k-1]], [y[-1] = 0].
    [lfilter_from] carries the previous output. *)
Fixpoint lfilter_from (a1 yprev : R) (x : ndarray) : ndarray :=
  match x with
  | [] => []
  | xk :: x' =>
      let yk := xk - a1 * yprev in
      yk :: lfilter_from a1 yk x'
  end.

Definition lfilter1 (a1 : R) (x : ndarray) : ndarray := lfilter_from a1 0 x.

(** [def discount(x, gamma):
       return scipy.signal.lfilter([1], [1, -gamma], x[::-1], axis=0)[::-1]] *)
Definition discount (x : ndarray) (gamma : R) : ndarray :=
  rev (lfilter1 (- gamma) (rev x)).

(** ** PartialRollout *)

Record PartialRollout : Type := mkPartialRollout {
  states : list ndarray;
  actions : list ndarray;
  rewards : list R;
  values : list R;
  ss : list ndarray;
  gs : list ndarray;
  features : list (list ndarray);
  manager_r : R;
  worker_r : R;
  terminal : bool
}.

(** [PartialRollout.__init__] *)
Definition PartialRollout_init : PartialRollout :=
  {| states := []; actions := []; rewards := []; values := [];
     ss := []; gs := []; features := [];
     manager_r := 0; worker_r := 0; terminal := false |}.

(** One transition, the arguments of [PartialRollout.add] in their order. *)
Record transition : Type := mkTransition {
  t_state : ndarray;
  t_action : ndarray;
  t_reward : R;
  t_value : R;
  t_g : ndarray;
  t_s : ndarray;
  t_terminal : bool;
  t_features : list ndarray
}.

(** [PartialRollout.add(self, state, action, reward, value, g, s, terminal,
    features)] *)
Definition add (self : PartialRollout) (t : transition) : PartialRollout :=
  {| states := states self ++ [t_state t];
     actions := actions self ++ [t_action t];
     rewards := rewards self ++ [t_reward t];
     values := values self ++ [t_value t];
     ss := ss self ++ [t_s t];
     gs := gs self ++ [t_g t];
     features := features self ++ [t_features t];
     manager_r := manager_r self;
     worker_r := worker_r self;
     terminal := t_terminal t |}.

(** [PartialRollout.extend(self, other)]; the [assert] is its first
    statement, so nothing of [self] has changed when it fails. *)
Definition extend (self other : PartialRollout) : outcome PartialRollout :=
  if terminal self then Raises AssertionError
  else Returns
    {| states := states self ++ states other;
       actions := actions self ++ actions other;
       rewards := rewards self ++ rewards other;
       values := values self ++ values other;
       ss := ss self ++ ss other;
       gs := gs self ++ gs other;
       features := features self ++ features other;
       manager_r := manager_r other;
       worker_r := worker_r other;
       terminal := terminal other |}.

(** ** Batch and process_rollout *)

(** [Batch = namedtuple("Batch", ["obs", "a", "manager_returns",
    "worker_returns", "terminal", "s", "g", "features"])] *)
Module Batch.
Record t : Type := mk {
  obs : list ndarray;
  a : list ndarray;
  manager_returns : ndarray;
  worker_returns : ndarray;
  terminal : bool;
  s : list ndarray;
  g : list ndarray;
  features : list (list ndarray)
}.
End Batch.

(** [process_rollout(rollout, manager_gamma, worker_gamma, lambda_=1.0)].
    No statement of its body raises on a rollout whose fields are lists. *)
Definition process_rollout (rollout : PartialRollout)
    (manager_gamma worker_gamma lambda_ : R) : outcome Batch.t :=
  let batch_si := states rollout in
  let batch_a := actions rollout in
  let manager_rewards_plus_v := rewards rollout ++ [manager_r rollout] in
  let worker_rewards_plus_v := rewards rollout ++ [worker_r rollout] in
  let batch_manager_r :=
    drop_last (discount manager_rewards_plus_v manager_gamma) in
  let batch_worker_r :=
    drop_last (discount worker_rewards_plus_v worker_gamma) in
  let batch_s := ss rollout in
  let batch_g := gs rollout in
  Returns (Batch.mk batch_si batch_a batch_manager_r batch_worker_r
             (terminal rollout) batch_s batch_g (features rollout)).

(** The backward recurrence of a return stream [ret] over the rewards [r],
    the bootstrap [V] and the factor [gamma]. *)
Definition backward_recurrence (r : list R) (V gamma : R) (ret : ndarray)
    : Prop :=
  let n := length r in
  length ret = n /\
  nth (n - 1) ret 0 = nth (n - 1) r 0 + gamma * V /\
  forall i, (i < n - 1)%nat -> nth i ret 0 = nth i r 0 + gamma * nth (S i) ret 0.

(** ** env_runner *)

(** What [policy.act] fetches: [fetched[0]], ..., [fetched[4]] and
    [fetched[5:]]. *)
Record fetched : Type := mkFetched {
  f_action : ndarray;
  f_value : R;
  f_g : ndarray;
  f_s : ndarray;
  f_c_g : ndarray;
  f_features : list ndarray
}.

(** The environment and the policy are outside this file.  Their calls are
    transitions of an abstract world [W] (the simulator, the TensorFlow
    session and the weights, which the optimizer thread changes meanwhile).
    [timestep_limit] is the tag
    [wrapper_config.TimeLimit.max_episode_steps], taken to be present, and
    [autoreset] the metadata entry [semantics.autoreset]. *)
Record externals (W : Type) : Type := mkExternals {
  env_reset : W -> ndarray * W;
  env_step : nat -> W -> (ndarray * R * bool) * W;
  timestep_limit : nat;
  autoreset : bool;
  get_initial_features : W -> (ndarray * list ndarray) * W;
  policy_act : ndarray -> ndarray -> list ndarray -> W -> fetched * W;
  policy_value : ndarray -> ndarray -> list ndarray -> W -> (R * R) * W
}.

Arguments env_reset {W} _ _.
Arguments env_step {W} _ _ _.
Arguments timestep_limit {W} _.
Arguments autoreset {W} _.
Arguments get_initial_features {W} _ _.
Arguments policy_act {W} _ _ _ _ _.
Arguments policy_value {W} _ _ _ _ _.

(** [x.argmax()]: the first index of the largest entry. *)
Fixpoint argmax_from (best : R) (besti i : nat) (x : ndarray) : nat :=
  match x with
  | [] => besti
  | xi :: x' =>
      if Rlt_dec best xi then argmax_from xi i (S i) x'
      else argmax_from best besti (S i) x'
  end.

Definition argmax (x : ndarray) : nat :=
  match x with
  | [] => 0%nat
  | x0 :: x' => argmax_from x0 0%nat 1%nat x'
  end.

(** [deque(maxlen=n).append(x)] *)
Definition deque_append {A : Type} (maxlen : nat) (d : list A) (x : A)
    : list A :=
  let d' := d ++ [x] in skipn (length d' - maxlen) d'.

(** The local variables of the generator that live across fragments;
    [length_] and [rewards_] are its [length] and [rewards]. *)
Record runner_locals : Type := mkLocals {
  last_state : ndarray;
  last_c_g : ndarray;
  last_features : list ndarray;
  length_ : nat;
  rewards_ : R;
  reward_list : list R
}.

(** The statements of [env_runner] before its [while True]. *)
Definition env_runner_start {W : Type} (X : externals W) (w : W)
    : runner_locals * W :=
  let '(st0, w) := env_reset X w in
  let '((c_g, feats), w) := get_initial_features X w in
  (mkLocals st0 c_g feats 0 0 [], w).

(** The [for local_step_iter in range(num_local_steps)] loop, [k] iterations
    left.  The result carries [terminal_end].  The summaries written when
    [info] is not empty and the printed line are left out. *)
Fixpoint collect {W : Type} (X : externals W) (k : nat) (l : runner_locals)
    (rollout : PartialRollout) (w : W)
    : (bool * runner_locals * PartialRollout) * W :=
  match k with
  | O => ((false, l, rollout), w)
  | S k' =>
      let '(fe, w) :=
        policy_act X (last_state l) (last_c_g l) (last_features l) w in
      let action_to_take := argmax (f_action fe) in
      let '((state, reward, term), w) := env_step X action_to_take w in
      let rollout :=
        add rollout
          (mkTransition (last_state l) (f_action fe) reward (f_value fe)
             (f_g fe) (f_s fe) term (last_features l)) in
      let length := S (length_ l) in
      let rewards := rewards_ l + reward in
      if term || (timestep_limit X <=? length)%nat then
        let '(st', w) :=
          if (timestep_limit X <=? length)%nat || negb (autoreset X)
          then env_reset X w else (state, w) in
        let '((c_g, feats), w) := get_initial_features X w in
        ((true,
          mkLocals st' c_g feats 0 0 (deque_append 30 (reward_list l) rewards),
          rollout), w)
      else
        collect X k'
          (mkLocals state (f_c_g fe) (f_features fe) length rewards
             (reward_list l))
          rollout w
  end.

Definition set_bootstrap (rollout : PartialRollout) (m wk : R)
    : PartialRollout :=
  {| states := states rollout; actions := actions rollout;
     rewards := rewards rollout; values := values rollout;
     ss := ss rollout; gs := gs rollout; features := features rollout;
     manager_r := m; worker_r := wk; terminal := terminal rollout |}.

(** One pass of the body of [while True] in [env_runner], up to its
    [yield rollout]: what [next(rollout_provider)] returns. *)
Definition env_runner_next {W : Type} (X : externals W) (num_local_steps : nat)
    (l : runner_locals) (w : W) : (PartialRollout * runner_locals) * W :=
  let '((terminal_end, l, rollout), w) :=
    collect X num_local_steps l PartialRollout_init w in
  if negb terminal_end then
    let '((m, wk), w) :=
      policy_value X (last_state l) (last_c_g l) (last_features l) w in
    ((set_bootstrap rollout m wk, l), w)
  else ((rollout, l), w).

(** The first [k] fragments the generator yields. *)
Fixpoint env_runner_take {W : Type} (X : externals W) (num_local_steps : nat)
    (k : nat) (l : runner_locals) (w : W) : list PartialRollout :=
  match k with
  | O => []
  | S k' =>
      let '((rollout, l), w) := env_runner_next X num_local_steps l w in
      rollout :: env_runner_take X num_local_steps k' l w
  end.

(** All per-step sequences of a rollout have [n] entries. *)
Definition steps (n : nat) (r : PartialRollout) : Prop :=
  length (states r) = n /\ length (actions r) = n /\
  length (rewards r) = n /\ length (values r) = n /\
  length (ss r) = n /\ length (gs r) = n /\ length (features r) = n.

(** A terminal fragment has both bootstraps at their initial [0.0]. *)
Definition terminal_zero (r : PartialRollout) : Prop :=
  terminal r = true -> manager_r r = 0 /\ worker_r r = 0.

(** ** queue.Queue *)

(** Python's [queue.Queue(maxsize)], as its documentation describes it: a
    FIFO of at most [maxsize] items when [maxsize > 0].  [try_put] and
    [try_get] are what a [put] or a [get] does at an instant it holds the
    lock; [None] says the caller has to wait. *)
Module Queue.
Record t : Type := mk {
  maxsize : nat;
  items : list PartialRollout
}.

Definition qsize (q : t) : nat := length (items q).

Definition full (q : t) : bool :=
  (0 <? maxsize q)%nat && (maxsize q <=? qsize q)%nat.

Definition try_put (item : PartialRollout) (q : t) : option t :=
  if full q then None else Some (mk (maxsize q) (items q ++ [item])).

Definition try_get (q : t) : option (PartialRollout * t) :=
  match items q with
  | [] => None
  | item :: rest => Some (item, mk (maxsize q) rest)
  end.

(** [get_nowait()]: raises [Empty] rather than wait. *)
Definition get_nowait (q : t) : outcome PartialRollout * t :=
  match try_get q with
  | Some (item, q') => (Returns item, q')
  | None => (Raises Empty, q)
  end.
End Queue.

(** ** RunnerThread *)

(** [self.queue = queue.Queue(5)] in [RunnerThread.__init__]. *)
Definition RunnerThread_queue : Queue.t := Queue.mk 5 [].

(** The [timeout] of [self.queue.put(next(rollout_provider), timeout=600.0)]
    and of [self.runner.queue.get(timeout=600.0)], in seconds. *)
Definition put_timeout : R := 600.
Definition get_timeout : R := 600.

(** Where the runner thread is in [RunnerThread._run]. *)
Inductive runner_pc : Type :=
| RunNext                 (* evaluating next(rollout_provider) *)
| RunPut (item : PartialRollout) (since : R)
                          (* inside queue.put(item, timeout=600.0), entered
                             at the time [since] *)
| RunDead (e : exn).      (* an exception left _run: the thread has ended *)

(** ** FeudalPolicyOptimizer.pull_batch_from_queue *)

(** Where the optimizer thread is in [pull_batch_from_queue]. *)
Inductive pull_pc : Type :=
| PullGet (since : R)     (* inside queue.get(timeout=600.0), entered at the
                             time [since] *)
| PullWhile (rollout : PartialRollout)     (* at the test of the while *)
| PullReturned (rollout : PartialRollout)  (* return rollout *)
| PullRaised (e : exn).   (* an exception left the method *)

(** The queue operations of one call, for the statements about them. *)
Inductive qop : Type :=
| GetBlocking (item : PartialRollout)   (* get(timeout=600.0) returned item *)
| GetTimedOut                           (* get(timeout=600.0) raised Empty *)
| GetNowait (item : PartialRollout)     (* get_nowait() returned item *)
| GetNowaitEmpty.                       (* get_nowait() raised Empty *)

(** One statement of [pull_batch_from_queue] on the queue as it is now, with
    the queue operations it made.  [None]: the thread waits inside [get], or
    the call is over. *)
Definition pull_step (pc : pull_pc) (q : Queue.t)
    : option (pull_pc * Queue.t * list qop) :=
  match pc with
  | PullGet _ =>
      match Queue.try_get q with
      | Some (rollout, q') => Some (PullWhile rollout, q', [GetBlocking rollout])
      | None => None
      end
  | PullWhile rollout =>
      if negb (terminal rollout) then
        match Queue.get_nowait q with
        | (Returns other, q') =>
            match extend rollout other with
            | Returns rollout' => Some (PullWhile rollout', q', [GetNowait other])
            | Raises e => Some (PullRaised e, q', [GetNowait other])
            end
        | (Raises Empty, q') => Some (PullReturned rollout, q', [GetNowaitEmpty])
        | (Raises e, q') => Some (PullRaised e, q', [])
        end
      else Some (PullReturned rollout, q, [])
  | PullReturned _ => None
  | PullRaised _ => None
  end.

(** ** The two threads and the queue between them *)

Record system : Type := mkSystem {
  queue : Queue.t;
  runner : runner_pc;
  optimizer : pull_pc;
  now : R;               (* the clock, in seconds *)
  log : list qop;        (* queue operations of the current call *)
  yielded : nat;         (* fragments the generator has yielded *)
  removed : nat;         (* fragments the optimizer has removed *)
  lost : nat             (* fragments dropped by a put that timed out *)
}.

(** What the scheduler can let happen next. *)
Inductive label : Type :=
| Tick (dt : R)                       (* dt seconds pass *)
| RunnerYield (item : PartialRollout) (* next(rollout_provider) returns *)
| RunnerPut                           (* the put of the runner goes through *)
| RunnerPutTimeout                    (* the put of the runner raises Full *)
| OptimizerStep                       (* next statement of the optimizer *)
| OptimizerGetTimeout                 (* the get of the optimizer raises Empty *)
| OptimizerCall.                      (* train calls the method again *)

Definition count_removed (ops : list qop) : nat :=
  length (filter (fun o => match o with
                           | GetBlocking _ | GetNowait _ => true
                           | _ => false
                           end) ops).

(** [None]: the label is not enabled in this state.  A [put] goes through
    as soon as the queue has room and raises [Full] when the queue is full
    and its timeout has passed; a [get] likewise with [Empty]. *)
Definition step (l : label) (st : system) : option system :=
  match l, runner st, optimizer st with
  | Tick dt, _, _ =>
      if Rle_dec 0 dt then
        Some (mkSystem (queue st) (runner st) (optimizer st) (now st + dt)
                (log st) (yielded st) (removed st) (lost st))
      else None
  | RunnerYield item, RunNext, _ =>
      Some (mkSystem (queue st) (RunPut item (now st)) (optimizer st) (now st)
              (log st) (S (yielded st)) (removed st) (lost st))
  | RunnerPut, RunPut item _, _ =>
      match Queue.try_put item (queue st) with
      | Some q' =>
          Some (mkSystem q' RunNext (optimizer st) (now st) (log st)
                  (yielded st) (removed st) (lost st))
      | None => None
      end
  | RunnerPutTimeout, RunPut item since, _ =>
      if Queue.full (queue st) then
        if Rle_dec (since + put_timeout) (now st) then
          Some (mkSystem (queue st) (RunDead Full) (optimizer st) (now st)
                  (log st) (yielded st) (removed st) (S (lost st)))
        else None
      else None
  | OptimizerStep, _, pc =>
      match pull_step pc (queue st) with
      | Some (pc', q', ops) =>
          Some (mkSystem q' (runner st) pc' (now st) (log st ++ ops)
                  (yielded st) (count_removed ops + removed st) (lost st))
      | None => None
      end
  | OptimizerGetTimeout, _, PullGet since =>
      match Queue.try_get (queue st) with
      | None =>
          if Rle_dec (since + get_timeout) (now st) then
            Some (mkSystem (queue st) (runner st) (PullRaised Empty) (now st)
                    (log st ++ [GetTimedOut])
                    (yielded st) (removed st) (lost st))
          else None
      | Some _ => None
      end
  | OptimizerCall, _, PullReturned _ =>
      Some (mkSystem (queue st) (runner st) (PullGet (now st)) (now st) []
              (yielded st) (removed st) (lost st))
  | _, _, _ => None
  end.

(** A schedule; a label that is not enabled when its turn comes does
    nothing. *)
Fixpoint exec (sched : list label) (st : system) : system :=
  match sched with
  | [] => st
  | l :: sched' =>
      match step l st with
      | Some st' => exec sched' st'
      | None => exec sched' st
      end
  end.

(** [RunnerThread.__init__] and [start_runner], then the first call of
    [pull_batch_from_queue], at the time [0]. *)
Definition system_init : system :=
  mkSystem RunnerThread_queue RunNext (PullGet 0) 0 [] 0 0 0.

(** A call of [pull_batch_from_queue] that starts at the time [t0] on the
    queue [q], the runner being at [rn]. *)
Definition pull_call (q : Queue.t) (rn : runner_pc) (t0 : R) : system :=
  mkSystem q rn (PullGet t0) t0 [] 0 0 0.

(** The fragments the runner holds outside the queue. *)
Definition in_hand (rn : runner_pc) : nat :=
  match rn with
  | RunPut _ _ => 1
  | _ => 0
  end.

(** The merge of the fragments [others] into [rollout], in order. *)
Fixpoint merge (rollout : PartialRollout) (others : list PartialRollout)
    : outcome PartialRollout :=
  match others with
  | [] => Returns rollout
  | other :: others' =>
      rollout' <- extend rollout other ;; merge rollout' others'
  end.

(** [pull_batch_from_queue] when nothing else touches the queue meanwhile:
    the while loop over the items that are left. *)
Fixpoint drain (rollout : PartialRollout) (items : list PartialRollout)
    : outcome PartialRollout * list PartialRollout :=
  if negb (terminal rollout) then
    match items with
    | [] => (Returns rollout, [])
    | other :: rest =>
        match extend rollout other with
        | Returns rollout' => drain rollout' rest
        | Raises e => (Raises e, rest)
        end
    end
  else (Returns rollout, items).

Definition pull_batch_from_queue (q : Queue.t)
    : outcome PartialRollout * Queue.t :=
  match Queue.try_get q with
  | None => (Raises Empty, q)
  | Some (rollout, q') =>
      let '(o, rest) := drain rollout (Queue.items q') in
      (o, Queue.mk (Queue.maxsize q) rest)
  end.

(** Two rollouts that differ in their [values] at most. *)
Definition same_except_values (r1 r2 : PartialRollout) : Prop :=
  states r1 = states r2 /\ actions r1 = actions r2 /\
  rewards r1 = rewards r2 /\ ss r1 = ss r2 /\ gs r1 = gs r2 /\
  features r1 = features r2 /\ manager_r r1 = manager_r r2 /\
  worker_r r1 = worker_r r2 /\ terminal r1 = terminal r2.

(** [AB] is [A] followed by [B]: the seven sequences are concatenated, the
    flag and the two bootstraps are those of [B]. *)
Definition is_merge (AB A B : PartialRollout) : Prop :=
  states AB = states A ++ states B /\
  actions AB = actions A ++ actions B /\
  rewards AB = rewards A ++ rewards B /\
  values AB = values A ++ values B /\
  ss AB = ss A ++ ss B /\
  gs AB = gs A ++ gs B /\
  features AB = features A ++ features B /\
  terminal AB = terminal B /\
  manager_r AB = manager_r B /\
  worker_r AB = worker_r B.

(** ** What holds of the two threads in every reachable state *)

(** The books of the fragments balance: each fragment the generator has
    yielded was removed by the optimizer, or is in the queue, or is the one
    in the hand of the runner, or was lost with the one [put] that timed
    out, which ended the runner. *)
Definition backpressure_inv (st : system) : Prop :=
  Queue.maxsize (queue st) = 5%nat /\
  (Queue.qsize (queue st) <= 5)%nat /\
  (yielded st =
     removed st + Queue.qsize (queue st) + in_hand (runner st) + lost st)%nat /\
  (lost st <= 1)%nat /\
  (lost st = 1%nat -> runner st = RunDead Full).

(** What the log of a call of [pull_batch_from_queue] says at each point of
    the call. *)
Definition pull_spec (st : system) : Prop :=
  match optimizer st with
  | PullGet _ => log st = []
  | PullWhile rollout =>
      exists first others,
        log st = GetBlocking first :: map GetNowait others /\
        merge first others = Returns rollout
  | PullReturned rollout =>
      exists first others,
        merge first others = Returns rollout /\
        ((terminal rollout = true /\
          log st = GetBlocking first :: map GetNowait others) \/
         (terminal rollout = false /\
          log st = GetBlocking first :: map GetNowait others ++ [GetNowaitEmpty]))
  | PullRaised e => e = Empty /\ log st = [GetTimedOut]
  end.

(** ** Rollouts for the examples *)

(** A terminal rollout of one step whose bootstraps are not zero. *)
Definition terminal_with_bootstrap : PartialRollout :=
  {| states := [[0]]; actions := [[1]]; rewards := [1]; values := [0];
     ss := [[0]]; gs := [[0]]; features := [[]];
     manager_r := 5; worker_r := 5; terminal := true |}.

(** A fragment of two steps cut by the step cap, with bootstraps [4]. *)
Definition fragment_open : PartialRollout :=
  set_bootstrap
    (add (add PartialRollout_init
            (mkTransition [0] [1; 0] 1 0 [0] [0] false []))
       (mkTransition [1] [0; 1] 1 0 [0] [0] false []))
    4 4.

(** A fragment of three steps that ends its episode. *)
Definition fragment_closed : PartialRollout :=
  add (add (add PartialRollout_init
              (mkTransition [2] [1; 0] 1 0 [0] [0] false []))
         (mkTransition [3] [0; 1] 2 0 [0] [0] false []))
    (mkTransition [4] [0; 1] 3 0 [0] [0] true []).

(** ** Sums *)

(** [sum over j of gamma^(k+j) * l[j]]. *)
Fixpoint power_sum_from (gamma : R) (k : nat) (l : list R) : R :=
  match l with
  | [] => 0
  | x :: l' => gamma ^ k * x + power_sum_from gamma (S k) l'
  end.

(** The seven sequences of [rollout] are those of the fragments [taken],
    one after the other, and its flag and bootstraps are those of the last
    of them. *)
Definition concat_of (taken : list PartialRollout) (rollout : PartialRollout)
    : Prop :=
  states rollout = concat (map states taken) /\
  actions rollout = concat (map actions taken) /\
  rewards rollout = concat (map rewards taken) /\
  values rollout = concat (map values taken) /\
  ss rollout = concat (map ss taken) /\
  gs rollout = concat (map gs taken) /\
  features rollout = concat (map features taken) /\
  terminal rollout = terminal (last taken PartialRollout_init) /\
  manager_r rollout = manager_r (last taken PartialRollout_init) /\
  worker_r rollout = worker_r (last taken PartialRollout_init).

(** ** What went through the queue *)

Definition removed_items (ops : list qop) : list PartialRollout :=
  flat_map (fun o => match o with
                     | GetBlocking item | GetNowait item => [item]
                     | _ => []
                     end) ops.

(** The item that the step [l] puts into the queue, if it puts one. *)
Definition step_puts (l : label) (st : system) : list PartialRollout :=
  match l, runner st with
  | RunnerPut, RunPut item _ =>
      match Queue.try_put item (queue st) with
      | Some _ => [item]
      | None => []
      end
  | _, _ => []
  end.

(** The items that the step [l] takes out of the queue. *)
Definition step_gets (l : label) (st : system) : list PartialRollout :=
  match l with
  | OptimizerStep =>
      match pull_step (optimizer st) (queue st) with
      | Some (_, _, ops) => removed_items ops
      | None => []
      end
  | _ => []
  end.

(** The items put into the queue, and those taken out of it, along a
    schedule, in the order of the steps. *)
Fixpoint put_history (sched : list label) (st : system)
    : list PartialRollout :=
  match sched with
  | [] => []
  | l :: sched' =>
      match step l st with
      | Some st' => step_puts l st ++ put_history sched' st'
      | None => put_history sched' st
      end
  end.

Fixpoint get_history (sched : list label) (st : system)
    : list PartialRollout :=
  match sched with
  | [] => []
  | l :: sched' =>
      match step l st with
      | Some st' => step_gets l st ++ get_history sched' st'
      | None => get_history sched' st
      end
  end.

(** ** FeudalPolicyOptimizer.train *)





(** ** The fragments of the runner *)

(** [f] is a fragment that [env_runner] yields with the step cap
    [num_local_steps]: what one pass of the body of its [while True] builds,
    from some values of its local variables and some state of the world. *)
Definition from_env_runner {W : Type} (X : externals W) (num_local_steps : nat)
    (f : PartialRollout) : Prop :=
  exists (l : runner_locals) (w : W),
    fst (fst (env_runner_next X num_local_steps l w)) = f.

(** ** An environment and a policy for the examples *)

(** Every step gives the reward [1] and never ends the episode; the episode
    is cut after [3] steps; the policy always answers the same, with the
    values [4] and [4].  The world counts the steps of the environment. *)
Definition toy_action : ndarray := [0; 1].

Definition toy_externals : externals nat :=
  mkExternals nat
    (fun w => ([0], w))
    (fun _ w => (([1], 1, false), S w))
    3 false
    (fun w => (([0], []), w))
    (fun _ _ _ w => (mkFetched toy_action 0 [0] [0] [0] [], w))
    (fun _ _ _ w => ((4, 4), w)).

Definition toy_locals : runner_locals := fst (env_runner_start toy_externals 0%nat).

(** As [toy_externals], but the third step of the environment ends the
    episode, and no episode is cut. *)
Definition episode_externals : externals nat :=
  mkExternals nat
    (fun w => ([0], w))
    (fun _ w => (([1], 1, (w =? 2)%nat), S w))
    1000 false
    (fun w => (([0], []), w))
    (fun _ _ _ w => (mkFetched toy_action 0 [0] [0] [0] [], w))
    (fun _ _ _ w => ((4, 4), w)).

(** The queue that holds the first two fragments [env_runner] yields on
    [episode_externals] with the step cap [2]: one of two steps, cut by the
    cap, and one of one step, which ends the episode. *)
Definition episode_queue : Queue.t :=
  Queue.mk 5
    (env_runner_take episode_externals 2 2
       (fst (env_runner_start episode_externals 0%nat)) 0%nat).

(** * Theorems *)

Section Discount.

Variable gamma : R.

Lemma lfilter_from_length a1 y0 x :
  length (lfilter_from a1 y0 x) = length x.
Proof.
  revert y0; induction x as [|xk x IH]; intros y0; simpl; auto.
Qed.

Lemma last_cons {A} (l : list A) : forall x d, last (x :: l) d = last l x.
Proof.
  induction l as [|y l IH]; intros x d; [reflexivity|].
  change (last (y :: l) d = last (y :: l) x). now rewrite !IH.
Qed.

Lemma lfilter_from_snoc a1 x : forall y0 xk,
  lfilter_from a1 y0 (x ++ [xk]) =
  lfilter_from a1 y0 x ++ [xk - a1 * last (lfilter_from a1 y0 x) y0].
Proof.
  induction x as [|x0 x IH]; intros y0 xk.
  - reflexivity.
  - cbn [app lfilter_from]. cbv zeta. rewrite IH, last_cons. reflexivity.
Qed.

Lemma hd_rev {A} (l : list A) d : hd d (rev l) = last l d.
Proof.
  induction l as [|x l IH] using rev_ind; simpl.
  - reflexivity.
  - rewrite rev_app_distr, last_last. reflexivity.
Qed.

Lemma discount_length x : length (discount x gamma) = length x.
Proof.
  unfold discount, lfilter1.
  now rewrite length_rev, lfilter_from_length, length_rev.
Qed.

(** One step of the backward pass. *)
Lemma discount_cons xk x :
  discount (xk :: x) gamma =
  (xk + gamma * hd 0 (discount x gamma)) :: discount x gamma.
Proof.
  unfold discount, lfilter1. simpl rev at 2.
  rewrite lfilter_from_snoc, rev_app_distr. simpl.
  f_equal. rewrite hd_rev. ring.
Qed.

Lemma discount_nth x : forall i,
  nth i (discount x gamma) 0 =
  nth i x 0 + gamma * nth (S i) (discount x gamma) 0.
Proof.
  induction x as [|xk x IH]; intros i.
  - destruct i; simpl; ring.
  - rewrite discount_cons. destruct i as [|i].
    + simpl. destruct (discount x gamma); reflexivity.
    + simpl. apply IH.
Qed.

Lemma nth_drop_last {A} (l : list A) d i :
  (S i < length l)%nat -> nth i (drop_last l) d = nth i l d.
Proof.
  revert i; induction l as [|x l IH]; intros i Hi; simpl in *.
  - lia.
  - destruct l as [|y l].
    + simpl in Hi. lia.
    + destruct i as [|i]; [reflexivity|].
      change (nth i (drop_last (y :: l)) d = nth i (y :: l) d).
      apply IH. simpl in *. lia.
Qed.

Lemma drop_last_length {A} (l : list A) :
  length (drop_last l) = (length l - 1)%nat.
Proof.
  induction l as [|x l IH]; simpl; [reflexivity|].
  destruct l; simpl in *; [reflexivity | lia].
Qed.

(** The stream that [process_rollout] builds satisfies the recurrence. *)
Lemma returns_recurrence (r : list R) (V : R) :
  (1 <= length r)%nat ->
  backward_recurrence r V gamma (drop_last (discount (r ++ [V]) gamma)).
Proof.
  intros Hn. unfold backward_recurrence; cbv zeta.
  assert (HL : length (discount (r ++ [V]) gamma) = S (length r))
    by (rewrite discount_length, length_app; simpl; lia).
  split; [rewrite drop_last_length, HL; lia|].
  assert (Hlast : nth (length r) (discount (r ++ [V]) gamma) 0 = V).
  { rewrite discount_nth, app_nth2, Nat.sub_diag by lia. simpl.
    rewrite (nth_overflow (discount (r ++ [V]) gamma)) by lia. ring. }
  split.
  - rewrite nth_drop_last by lia.
    rewrite discount_nth, app_nth1 by lia.
    replace (S (length r - 1)) with (length r) by lia.
    now rewrite Hlast.
  - intros i Hi.
    rewrite !nth_drop_last by lia.
    rewrite discount_nth, app_nth1 by lia. reflexivity.
Qed.

(** The recurrence has one solution only. *)
Lemma backward_recurrence_unique (r : list R) (V : R) : forall ret1 ret2,
  backward_recurrence r V gamma ret1 ->
  backward_recurrence r V gamma ret2 ->
  ret1 = ret2.
Proof.
  induction r as [|r0 r IH]; intros ret1 ret2 (L1 & E1 & S1) (L2 & E2 & S2).
  - destruct ret1, ret2; simpl in *; try discriminate; reflexivity.
  - destruct ret1 as [|y1 ret1], ret2 as [|y2 ret2]; simpl in L1, L2;
      try discriminate.
    destruct r as [|r1 r].
    + destruct ret1, ret2; simpl in *; try discriminate. congruence.
    + assert (Ht : ret1 = ret2).
      { apply IH; unfold backward_recurrence; cbv zeta.
        - split; [simpl in *; lia|]. simpl length in *.
          replace (S (S (length r)) - 1)%nat with (S (length r)) in E1 by lia.
          replace (S (length r) - 1)%nat with (length r) by lia.
          split; [exact E1|].
          intros i Hi. apply (S1 (S i)). lia.
        - split; [simpl in *; lia|]. simpl length in *.
          replace (S (S (length r)) - 1)%nat with (S (length r)) in E2 by lia.
          replace (S (length r) - 1)%nat with (length r) by lia.
          split; [exact E2|].
          intros i Hi. apply (S2 (S i)). lia. }
      subst ret2. f_equal.
      specialize (S1 0%nat). specialize (S2 0%nat). simpl in S1, S2.
      rewrite S1, S2 by lia. reflexivity.
Qed.

End Discount.

(** C1. For a rollout of [n >= 1] steps [process_rollout] returns a Batch
    whose manager and worker return streams each satisfy the backward
    recurrence [returns[n-1] = r[n-1] + gamma*V] and [returns[i] = r[i] +
    gamma*returns[i+1]] for [i < n-1], each with its own bootstrap and
    factor; the stream is the discounted pass over the rewards with the
    bootstrap appended, its last element dropped, and it is the only stream
    that satisfies the recurrence. *)
Theorem process_rollout_recurrence :
  forall (rollout : PartialRollout) (manager_gamma worker_gamma lambda_ : R),
    (1 <= length (rewards rollout))%nat ->
    exists b,
      process_rollout rollout manager_gamma worker_gamma lambda_ = Returns b /\
      backward_recurrence (rewards rollout) (manager_r rollout) manager_gamma
        (Batch.manager_returns b) /\
      backward_recurrence (rewards rollout) (worker_r rollout) worker_gamma
        (Batch.worker_returns b) /\
      Batch.manager_returns b =
        drop_last (discount (rewards rollout ++ [manager_r rollout])
                     manager_gamma) /\
      Batch.worker_returns b =
        drop_last (discount (rewards rollout ++ [worker_r rollout])
                     worker_gamma) /\
      (forall ret,
          backward_recurrence (rewards rollout) (manager_r rollout)
            manager_gamma ret -> ret = Batch.manager_returns b) /\
      (forall ret,
          backward_recurrence (rewards rollout) (worker_r rollout)
            worker_gamma ret -> ret = Batch.worker_returns b).
Proof.
  intros rollout gm gw lam Hn. eexists. split; [reflexivity|]. simpl.
  pose proof (returns_recurrence gm (rewards rollout) (manager_r rollout) Hn)
    as Hm.
  pose proof (returns_recurrence gw (rewards rollout) (worker_r rollout) Hn)
    as Hw.
  repeat split; try (apply Hm); try (apply Hw).
  - intros ret Hret. eapply backward_recurrence_unique; eauto.
  - intros ret Hret. eapply backward_recurrence_unique; eauto.
Qed.

(** The recurrence on [fragment_open], with the factors [0.5] and [0.9]. *)
Lemma process_rollout_recurrence_witness :
  exists b,
    process_rollout fragment_open (1 / 2) (9 / 10) 1 = Returns b /\
    backward_recurrence (rewards fragment_open) (manager_r fragment_open)
      (1 / 2) (Batch.manager_returns b) /\
    backward_recurrence (rewards fragment_open) (worker_r fragment_open)
      (9 / 10) (Batch.worker_returns b) /\
    Batch.manager_returns b =
      drop_last (discount (rewards fragment_open ++ [manager_r fragment_open])
                   (1 / 2)) /\
    Batch.worker_returns b =
      drop_last (discount (rewards fragment_open ++ [worker_r fragment_open])
                   (9 / 10)) /\
    (forall ret,
        backward_recurrence (rewards fragment_open) (manager_r fragment_open)
          (1 / 2) ret -> ret = Batch.manager_returns b) /\
    (forall ret,
        backward_recurrence (rewards fragment_open) (worker_r fragment_open)
          (9 / 10) ret -> ret = Batch.worker_returns b).
Proof.
  apply (process_rollout_recurrence fragment_open (1 / 2) (9 / 10) 1).
  simpl. lia.
Defined.

(** Two runs: rewards [1, 2, 3] with the factor [0.5] and the bootstrap [0]
    give [2.75, 3.5, 3]; rewards [1, 1] with the bootstrap [4] and the
    factor [1] give [6, 5]. *)
Example discount_scenario_terminal :
  drop_last (discount ([1; 2; 3] ++ [0]) (1 / 2)) = [11 / 4; 7 / 2; 3].
Proof.
  unfold discount, lfilter1. simpl.
  repeat (apply (f_equal2 (@cons R)); [lra|]). reflexivity.
Qed.

Example discount_scenario_open :
  exists b,
    process_rollout fragment_open 1 1 1 = Returns b /\
    Batch.manager_returns b = [6; 5] /\ Batch.worker_returns b = [6; 5].
Proof.
  eexists. split; [reflexivity|].
  unfold discount, lfilter1. simpl.
  split; repeat (apply (f_equal2 (@cons R)); [lra|]); reflexivity.
Qed.

(** ** PartialRollout *)

Lemma add_steps n r t : steps n r -> steps (S n) (add r t).
Proof.
  unfold steps. intros H. simpl. rewrite !length_app. simpl. lia.
Qed.

Lemma init_steps : steps 0 PartialRollout_init.
Proof. unfold steps. simpl. tauto. Qed.

Lemma extend_steps n m r1 r2 r :
  steps n r1 -> steps m r2 -> extend r1 r2 = Returns r -> steps (n + m) r.
Proof.
  unfold steps, extend. intros H1 H2 E.
  destruct (terminal r1); [discriminate|]. injection E as <-. simpl.
  rewrite !length_app. lia.
Qed.

Lemma extend_terminal_zero r1 r2 r :
  terminal_zero r2 -> extend r1 r2 = Returns r -> terminal_zero r.
Proof.
  unfold terminal_zero, extend. intros H E.
  destruct (terminal r1); [discriminate|]. injection E as <-. exact H.
Qed.

(** What [pull_batch_from_queue] merges from fragments of the runner is
    again a rollout whose bootstraps are zero when it is terminal. *)
Lemma merge_terminal_zero : forall others first rollout,
  Forall terminal_zero (first :: others) ->
  merge first others = Returns rollout ->
  terminal_zero rollout.
Proof.
  induction others as [|other others IH]; intros first rollout HF H;
    simpl in H.
  - injection H as <-. now inversion HF.
  - destruct (extend first other) as [r1|e] eqn:E; simpl in H; [|discriminate].
    inversion HF as [|? ? _ HF']; subst.
    inversion HF' as [|? ? Ho HF'']; subst.
    apply (IH r1); [|exact H].
    constructor; [eapply extend_terminal_zero; eauto | exact HF''].
Qed.

Lemma last_nth {A} (l : list A) d : last l d = nth (length l - 1) l d.
Proof.
  induction l as [|x l IH]; [reflexivity|].
  destruct l as [|y l]; [reflexivity|].
  change (last (y :: l) d = nth (length (y :: l)) (x :: y :: l) d).
  rewrite IH. simpl. now rewrite Nat.sub_0_r.
Qed.

Lemma fold_add_snoc ts t self :
  fold_left add (ts ++ [t]) self = add (fold_left add ts self) t.
Proof. now rewrite fold_left_app. Qed.

(** ** env_runner *)

Section EnvRunner.

Context {W : Type} (X : externals W).

(** The inner loop leaves the bootstraps alone, sets [terminal_end] whenever
    the last transition was terminal, and adds at most [k] steps. *)
Lemma collect_spec : forall k l rollout w te l' r' w' n,
  collect X k l rollout w = ((te, l', r'), w') ->
  terminal rollout = false ->
  steps n rollout ->
  manager_r r' = manager_r rollout /\
  worker_r r' = worker_r rollout /\
  (terminal r' = true -> te = true) /\
  exists m, (m <= k)%nat /\ steps (n + m) r'.
Proof.
  induction k as [|k IH]; intros l rollout w te l' r' w' n E Ht Hs.
  - simpl in E. injection E as <- <- <- <-.
    repeat split; try congruence.
    exists 0%nat. rewrite Nat.add_0_r. split; [lia | exact Hs].
  - simpl in E.
    destruct (policy_act X (last_state l) (last_c_g l) (last_features l) w)
      as [fe w1].
    destruct (env_step X (argmax (f_action fe)) w1) as [[[state reward] term] w2].
    destruct (term || (timestep_limit X <=? S (length_ l))%nat) eqn:Hend.
    + destruct (if (timestep_limit X <=? S (length_ l))%nat || negb (autoreset X)
                then env_reset X w2 else (state, w2)) as [st' w3].
      destruct (get_initial_features X w3) as [[c_g feats] w4].
      injection E as <- <- <- <-. simpl.
      repeat split; try reflexivity.
      exists 1%nat. split; [lia|].
      replace (n + 1)%nat with (S n) by lia. now apply add_steps.
    + apply orb_false_iff in Hend. destruct Hend as [Hterm _]. subst term.
      eapply IH in E; [| reflexivity | apply add_steps; exact Hs].
      destruct E as (Em & Ew & Et & m & Hm & Hsteps).
      simpl in Em, Ew. repeat split; try assumption.
      exists (S m). split; [lia|].
      replace (n + S m)%nat with (S n + m)%nat by lia. exact Hsteps.
Qed.

(** Every fragment that [env_runner] yields has at most [num_local_steps]
    steps, all its sequences of one length, and zero bootstraps when it is
    terminal. *)
Lemma env_runner_next_spec num_local_steps l w rollout l' w' :
  env_runner_next X num_local_steps l w = ((rollout, l'), w') ->
  terminal_zero rollout /\
  exists m, (m <= num_local_steps)%nat /\ steps m rollout.
Proof.
  unfold env_runner_next. intros E.
  destruct (collect X num_local_steps l PartialRollout_init w)
    as [[[te l1] r1] w1] eqn:Ec.
  apply collect_spec with (n := 0%nat) in Ec;
    [| reflexivity | exact init_steps].
  destruct Ec as (Em & Ew & Et & m & Hm & Hs). simpl in Em, Ew, Hs.
  destruct te; simpl in E.
  - injection E as <- <- <-. split; [|eauto].
    intros _. split; assumption.
  - destruct (policy_value X (last_state l1) (last_c_g l1) (last_features l1) w1)
      as [[mv wv] w2].
    injection E as <- <- <-. split.
    + intros Hterm. simpl in Hterm. apply Et in Hterm. discriminate.
    + exists m. split; [exact Hm|]. exact Hs.
Qed.

Lemma env_runner_take_spec num_local_steps : forall k l w,
  Forall (fun rollout =>
            terminal_zero rollout /\
            exists m, (m <= num_local_steps)%nat /\ steps m rollout)
         (env_runner_take X num_local_steps k l w).
Proof.
  induction k as [|k IH]; intros l w; simpl; [constructor|].
  destruct (env_runner_next X num_local_steps l w) as [[rollout l1] w1] eqn:E.
  constructor; [eapply env_runner_next_spec; eauto | apply IH].
Qed.

End EnvRunner.

(** With both bootstraps at [0.0] the appended element adds nothing: the
    last element of each return stream is the last reward. *)
Lemma zero_bootstrap_last_return :
  forall (rollout : PartialRollout) (manager_gamma worker_gamma lambda_ : R),
    manager_r rollout = 0 ->
    worker_r rollout = 0 ->
    (1 <= length (rewards rollout))%nat ->
    exists b,
      process_rollout rollout manager_gamma worker_gamma lambda_ = Returns b /\
      nth (length (rewards rollout) - 1) (Batch.manager_returns b) 0 =
        nth (length (rewards rollout) - 1) (rewards rollout) 0 /\
      nth (length (rewards rollout) - 1) (Batch.worker_returns b) 0 =
        nth (length (rewards rollout) - 1) (rewards rollout) 0 /\
      last (Batch.manager_returns b) 0 = last (rewards rollout) 0 /\
      last (Batch.worker_returns b) 0 = last (rewards rollout) 0.
Proof.
  intros rollout gm gw lam Hm Hw Hn.
  eexists. split; [reflexivity|]. simpl.
  destruct (returns_recurrence gm (rewards rollout) (manager_r rollout) Hn)
    as (Lm & Em & _).
  destruct (returns_recurrence gw (rewards rollout) (worker_r rollout) Hn)
    as (Lw & Ew & _).
  rewrite !last_nth, Lm, Lw.
  rewrite Hm in Em at 2. rewrite Hw in Ew at 2.
  rewrite Rmult_0_r, Rplus_0_r in Em, Ew.
  repeat split; assumption.
Qed.

(** C3 does not hold: on the empty rollout that [PartialRollout()] builds,
    [process_rollout] raises nothing. *)
Lemma process_rollout_empty_counterexample :
  ~ (forall (rollout : PartialRollout) (manager_gamma worker_gamma lambda_ : R),
        steps 0 rollout ->
        raises (process_rollout rollout manager_gamma worker_gamma lambda_)).
Proof.
  intros H. destruct (H PartialRollout_init 1 1 1 init_steps) as [e He].
  discriminate He.
Qed.

Lemma length_zero_nil {A} (l : list A) : length l = 0%nat -> l = [].
Proof. destruct l; [reflexivity | discriminate]. Qed.

(** C3, what the code does. On a rollout of zero steps [process_rollout]
    raises nothing: it returns the Batch whose per-step sequences are all
    empty (the bootstrap is the only element of each discounted stream, and
    it is dropped), with the flag of the rollout. *)
Theorem process_rollout_empty :
  forall (rollout : PartialRollout) (manager_gamma worker_gamma lambda_ : R),
    steps 0 rollout ->
    process_rollout rollout manager_gamma worker_gamma lambda_ =
      Returns (Batch.mk [] [] [] [] (terminal rollout) [] [] []) /\
    ~ raises (process_rollout rollout manager_gamma worker_gamma lambda_).
Proof.
  intros rollout gm gw lam (H1 & H2 & H3 & H4 & H5 & H6 & H7).
  unfold process_rollout.
  apply length_zero_nil in H1, H2, H3, H5, H6, H7.
  rewrite H1, H2, H3, H5, H6, H7. simpl.
  split; [reflexivity|]. intros [e He]. discriminate He.
Qed.

(** The rollout that [PartialRollout()] builds. *)
Lemma process_rollout_empty_witness :
  process_rollout PartialRollout_init (99 / 100) (99 / 100) 1 =
    Returns (Batch.mk [] [] [] [] false [] [] []) /\
  ~ raises (process_rollout PartialRollout_init (99 / 100) (99 / 100) 1).
Proof.
  apply (process_rollout_empty PartialRollout_init (99 / 100) (99 / 100) 1).
  exact init_steps.
Defined.

(** C4. [A.extend(B)] raises [AssertionError] exactly when [A] is terminal,
    and returns exactly when [A] is not terminal, whatever [B] is. *)
Theorem extend_precondition :
  forall A B : PartialRollout,
    (extend A B = Raises AssertionError <-> terminal A = true) /\
    (returns (extend A B) <-> terminal A = false) /\
    (raises (extend A B) <-> terminal A = true).
Proof.
  intros A B. unfold extend, returns, raises.
  destruct (terminal A); repeat split; intros;
    try reflexivity; try discriminate; eauto;
    repeat match goal with H : exists _, _ |- _ => destruct H end;
    discriminate.
Qed.

(** C5. For a non-terminal [A], [A.extend(B)] returns the rollout whose
    seven per-step sequences are those of [A] followed by those of [B] and
    whose terminal flag and two bootstraps are those of [B]; merging [A]
    with [B] and then with [C] has the same outcome as merging [A] with the
    merge of [B] and [C], and when [B] is not terminal either both return
    the same rollout, [A] followed by [B] followed by [C]. *)
Theorem extend_concat_assoc :
  forall A B : PartialRollout,
    terminal A = false ->
    (exists AB, extend A B = Returns AB /\ is_merge AB A B) /\
    (forall C : PartialRollout,
        (AB <- extend A B ;; extend AB C) =
        (BC <- extend B C ;; extend A BC) /\
        (terminal B = false ->
         exists BC ABC,
           extend B C = Returns BC /\ is_merge BC B C /\
           extend A BC = Returns ABC /\ is_merge ABC A BC /\
           (AB <- extend A B ;; extend AB C) = Returns ABC)).
Proof.
  intros A B HA. split.
  - unfold extend. rewrite HA. eexists. split; [reflexivity|].
    unfold is_merge. simpl. repeat split; reflexivity.
  - intros C. unfold extend, bind. rewrite HA. simpl.
    destruct (terminal B) eqn:HB.
    + split; [reflexivity | discriminate].
    + split.
      * rewrite <- !app_assoc. reflexivity.
      * intros _. do 2 eexists.
        split; [reflexivity|]. split; [unfold is_merge; simpl; tauto|].
        split; [reflexivity|]. split; [unfold is_merge; simpl; tauto|].
        rewrite <- !app_assoc. reflexivity.
Qed.

(** [fragment_open] merged with itself. *)
Lemma extend_concat_assoc_witness :
  (exists AB,
      extend fragment_open fragment_open = Returns AB /\
      is_merge AB fragment_open fragment_open) /\
  (forall C : PartialRollout,
      (AB <- extend fragment_open fragment_open ;; extend AB C) =
      (BC <- extend fragment_open C ;; extend fragment_open BC) /\
      (terminal fragment_open = false ->
       exists BC ABC,
         extend fragment_open C = Returns BC /\ is_merge BC fragment_open C /\
         extend fragment_open BC = Returns ABC /\
         is_merge ABC fragment_open BC /\
         (AB <- extend fragment_open fragment_open ;; extend AB C) =
         Returns ABC)).
Proof.
  apply (extend_concat_assoc fragment_open fragment_open).
  reflexivity.
Defined.

(** C6. For a rollout whose per-step sequences all have [n >= 1] entries,
    [process_rollout] returns a Batch whose [obs], [a], [manager_returns],
    [worker_returns], [s] and [g] all have [n] entries. *)
Theorem process_rollout_shape :
  forall (rollout : PartialRollout) (n : nat)
         (manager_gamma worker_gamma lambda_ : R),
    steps n rollout ->
    (1 <= n)%nat ->
    exists b,
      process_rollout rollout manager_gamma worker_gamma lambda_ = Returns b /\
      length (Batch.obs b) = n /\
      length (Batch.a b) = n /\
      length (Batch.manager_returns b) = n /\
      length (Batch.worker_returns b) = n /\
      length (Batch.s b) = n /\
      length (Batch.g b) = n.
Proof.
  intros rollout n gm gw lam (H1 & H2 & H3 & H4 & H5 & H6 & H7) Hn.
  eexists. split; [reflexivity|]. simpl.
  rewrite !drop_last_length, !discount_length, !length_app. simpl.
  repeat split; lia.
Qed.

(** A rollout of one step. *)
Lemma process_rollout_shape_witness :
  exists b,
    process_rollout terminal_with_bootstrap (1 / 2) (9 / 10) 1 = Returns b /\
    length (Batch.obs b) = 1%nat /\
    length (Batch.a b) = 1%nat /\
    length (Batch.manager_returns b) = 1%nat /\
    length (Batch.worker_returns b) = 1%nat /\
    length (Batch.s b) = 1%nat /\
    length (Batch.g b) = 1%nat.
Proof.
  apply (process_rollout_shape terminal_with_bootstrap 1 (1 / 2) (9 / 10) 1).
  - unfold steps. simpl. tauto.
  - lia.
Defined.

(** C9. [add] sets the terminal flag of the fragment to the flag of the
    transition it appends, whatever the flag was: after any adds that end
    with the transition [t] the fragment is terminal if and only if [t] is,
    and a non-terminal [t] appended to a terminal fragment leaves it
    non-terminal. *)
Theorem add_overwrites_terminal :
  forall (self : PartialRollout) (ts : list transition) (t : transition),
    terminal (add self t) = t_terminal t /\
    terminal (fold_left add (ts ++ [t]) self) = t_terminal t /\
    (terminal (fold_left add (ts ++ [t]) self) = true <-> t_terminal t = true) /\
    (terminal self = true -> t_terminal t = false ->
     terminal (add self t) = false).
Proof.
  intros self ts t. rewrite fold_add_snoc. simpl.
  repeat split; auto.
Qed.

(** C10. Two rollouts that differ in their [values] at most give the same
    Batch, whatever the two [lambda_]. *)
Theorem process_rollout_ignores_values :
  forall (r1 r2 : PartialRollout)
         (manager_gamma worker_gamma lambda1 lambda2 : R),
    same_except_values r1 r2 ->
    process_rollout r1 manager_gamma worker_gamma lambda1 =
    process_rollout r2 manager_gamma worker_gamma lambda2.
Proof.
  intros r1 r2 gm gw l1 l2 (H1 & H2 & H3 & H4 & H5 & H6 & H7 & H8 & H9).
  unfold process_rollout.
  rewrite H1, H2, H3, H4, H5, H6, H7, H8, H9. reflexivity.
Qed.

(** Two fragments of one step with the values [7] and [8]. *)
Lemma process_rollout_ignores_values_witness :
  process_rollout
    (add PartialRollout_init (mkTransition [0] [1] 3 7 [0] [0] false []))
    (1 / 2) (9 / 10) 1 =
  process_rollout
    (add PartialRollout_init (mkTransition [0] [1] 3 8 [0] [0] false []))
    (1 / 2) (9 / 10) (1 / 2).
Proof.
  apply (process_rollout_ignores_values
           (add PartialRollout_init (mkTransition [0] [1] 3 7 [0] [0] false []))
           (add PartialRollout_init (mkTransition [0] [1] 3 8 [0] [0] false []))).
  unfold same_except_values. simpl. repeat split; reflexivity.
Defined.

(** ** The runner, the queue and the optimizer *)

Lemma pull_step_books pc q pc' q' ops :
  pull_step pc q = Some (pc', q', ops) ->
  Queue.maxsize q' = Queue.maxsize q /\
  Queue.qsize q = (count_removed ops + Queue.qsize q')%nat.
Proof.
  destruct q as [mx items]. unfold pull_step, Queue.get_nowait, Queue.try_get,
    Queue.qsize. simpl.
  destruct pc as [since|rollout|rollout|e]; try discriminate.
  - destruct items as [|item rest]; [discriminate|].
    intros E. injection E as <- <- <-. simpl. auto.
  - destruct (terminal rollout) eqn:Ht; simpl.
    + intros E. injection E as <- <- <-. simpl. auto.
    + destruct items as [|item rest].
      * intros E. injection E as <- <- <-. simpl. auto.
      * unfold extend. rewrite Ht.
        intros E. injection E as <- <- <-. simpl. auto.
Qed.

Lemma step_backpressure l st st' :
  backpressure_inv st -> step l st = Some st' -> backpressure_inv st'.
Proof.
  unfold backpressure_inv. intros (Hmax & Hsize & Hbooks & Hlost & Hdead) E.
  unfold step in E.
  destruct l as [dt|item| | | | |].
  - destruct (Rle_dec 0 dt); [|discriminate].
    injection E as <-. simpl. auto.
  - destruct (runner st) eqn:Hr; try discriminate.
    assert (E' : st' = mkSystem (queue st) (RunPut item (now st)) (optimizer st)
                         (now st) (log st) (S (yielded st)) (removed st)
                         (lost st))
      by (destruct (optimizer st); congruence).
    subst st'. simpl in *.
    repeat split; try assumption; try lia.
    intros H1. specialize (Hdead H1). discriminate.
  - destruct (runner st) as [|item since|e] eqn:Hr; try discriminate.
    unfold Queue.try_put, Queue.full in E. rewrite Hmax in E.
    change (0 <? 5)%nat with true in E. cbn [andb] in E.
    destruct (5 <=? Queue.qsize (queue st))%nat eqn:Hfull.
    + destruct (optimizer st); discriminate.
    + apply Nat.leb_gt in Hfull.
      assert (E' : st' = mkSystem
                     (Queue.mk 5 (Queue.items (queue st) ++ [item]))
                     RunNext (optimizer st) (now st) (log st) (yielded st)
                     (removed st) (lost st))
        by (destruct (optimizer st); congruence).
      subst st'. unfold Queue.qsize in *. simpl in *.
      rewrite length_app. simpl.
      repeat split; try lia.
      intros H1. specialize (Hdead H1). discriminate.
  - destruct (runner st) as [|item since|e] eqn:Hr; try discriminate.
    destruct (Queue.full (queue st));
      [|destruct (optimizer st); discriminate].
    destruct (Rle_dec (since + put_timeout) (now st));
      [|destruct (optimizer st); discriminate].
    assert (E' : st' = mkSystem (queue st) (RunDead Full) (optimizer st)
                         (now st) (log st) (yielded st) (removed st)
                         (S (lost st)))
      by (destruct (optimizer st); congruence).
    subst st'. simpl in *.
    assert (lost st = 0)%nat.
    { destruct (lost st) as [|[|n]]; [reflexivity| |lia].
      specialize (Hdead eq_refl). discriminate. }
    repeat split; try assumption; try lia.
  - assert (E' : match pull_step (optimizer st) (queue st) with
                 | Some (pc', q', ops) =>
                     Some (mkSystem q' (runner st) pc' (now st) (log st ++ ops)
                             (yielded st) (count_removed ops + removed st)
                             (lost st))
                 | None => None
                 end = Some st')
      by (destruct (runner st); exact E).
    clear E.
    destruct (pull_step (optimizer st) (queue st)) as [[[pc' q'] ops]|] eqn:Hp;
      [|discriminate].
    injection E' as <-. simpl.
    apply pull_step_books in Hp. destruct Hp as [Hm Hq].
    repeat split; try assumption; try lia; congruence.
  - destruct (optimizer st) eqn:Ho;
      try (destruct (runner st); discriminate).
    destruct (Queue.try_get (queue st)) as [[? ?]|];
      try (destruct (runner st); discriminate).
    destruct (Rle_dec (since + get_timeout) (now st));
      try (destruct (runner st); discriminate).
    assert (E' : st' = mkSystem (queue st) (runner st) (PullRaised Empty)
                         (now st) (log st ++ [GetTimedOut]) (yielded st)
                         (removed st) (lost st))
      by (destruct (runner st); congruence).
    subst st'. simpl. auto.
  - destruct (optimizer st) eqn:Ho;
      try (destruct (runner st); discriminate).
    assert (E' : st' = mkSystem (queue st) (runner st) (PullGet (now st))
                         (now st) [] (yielded st) (removed st) (lost st))
      by (destruct (runner st); congruence).
    subst st'. simpl. auto.
Qed.

Lemma exec_invariant (P : system -> Prop) :
  (forall l st st', P st -> step l st = Some st' -> P st') ->
  forall sched st, P st -> P (exec sched st).
Proof.
  intros Hstep. induction sched as [|l sched IH]; intros st H; simpl.
  - exact H.
  - destruct (step l st) as [st'|] eqn:E; apply IH; eauto.
Qed.

Lemma system_init_backpressure : backpressure_inv system_init.
Proof.
  unfold backpressure_inv, Queue.qsize. simpl.
  repeat split; try lia; discriminate.
Qed.

(** ** pull_batch_from_queue *)

Lemma step_optimizer st :
  step OptimizerStep st =
    match pull_step (optimizer st) (queue st) with
    | Some (pc', q', ops) =>
        Some (mkSystem q' (runner st) pc' (now st) (log st ++ ops)
                (yielded st) (count_removed ops + removed st) (lost st))
    | None => None
    end.
Proof. unfold step. destruct (runner st); reflexivity. Qed.

Lemma merge_snoc : forall others first rollout other,
  merge first others = Returns rollout ->
  merge first (others ++ [other]) = extend rollout other.
Proof.
  induction others as [|o others IH]; intros first rollout other H; simpl in *.
  - injection H as <-. destruct (extend first other); reflexivity.
  - destruct (extend first o) as [r1|e]; simpl in *; [|discriminate].
    now apply IH.
Qed.

(** A merge that returns never extended a terminal fragment: the merge of
    every proper prefix is not terminal. *)
Lemma merge_prefix_open : forall before first other after rollout,
  merge first (before ++ other :: after) = Returns rollout ->
  exists r1, merge first before = Returns r1 /\ terminal r1 = false.
Proof.
  induction before as [|o before IH]; intros first other after rollout H;
    simpl in *.
  - exists first. split; [reflexivity|].
    unfold extend in H. destruct (terminal first); [discriminate | reflexivity].
  - destruct (extend first o) as [r1|e]; simpl in *; [|discriminate].
    eapply IH; eauto.
Qed.

Lemma pull_spec_frame st st' :
  optimizer st' = optimizer st -> log st' = log st ->
  pull_spec st -> pull_spec st'.
Proof. unfold pull_spec. intros -> ->. exact (fun H => H). Qed.

Lemma step_pull_spec l st st' :
  pull_spec st -> step l st = Some st' -> pull_spec st'.
Proof.
  intros H E. destruct l as [dt|item| | | | |].
  - unfold step in E. destruct (Rle_dec 0 dt); [|discriminate].
    injection E as <-. exact H.
  - unfold step in E. destruct (runner st); try discriminate.
    apply (pull_spec_frame st); [| |exact H];
      destruct (optimizer st); injection E as <-; reflexivity.
  - unfold step in E. destruct (runner st) as [|item since|e]; try discriminate.
    destruct (Queue.try_put item (queue st));
      [|destruct (optimizer st); discriminate].
    apply (pull_spec_frame st); [| |exact H];
      destruct (optimizer st); injection E as <-; reflexivity.
  - unfold step in E. destruct (runner st) as [|item since|e]; try discriminate.
    destruct (Queue.full (queue st));
      [|destruct (optimizer st); discriminate].
    destruct (Rle_dec (since + put_timeout) (now st));
      [|destruct (optimizer st); discriminate].
    apply (pull_spec_frame st); [| |exact H];
      destruct (optimizer st); injection E as <-; reflexivity.
  - rewrite step_optimizer in E.
    destruct (pull_step (optimizer st) (queue st)) as [[[pc' q'] ops]|] eqn:Hp;
      [|discriminate].
    injection E as <-. unfold pull_spec in *. simpl.
    unfold pull_step in Hp.
    destruct (optimizer st) as [since|rollout|rollout|e]; try discriminate.
    + destruct (Queue.try_get (queue st)) as [[first q1]|]; [|discriminate].
      injection Hp as <- <- <-. rewrite H.
      exists first, []. split; reflexivity.
    + destruct H as (first & others & Hlog & Hmerge).
      destruct (terminal rollout) eqn:Ht; simpl in Hp.
      * injection Hp as <- <- <-. exists first, others.
        split; [exact Hmerge|]. left. rewrite app_nil_r. auto.
      * unfold Queue.get_nowait in Hp.
        destruct (Queue.try_get (queue st)) as [[other q1]|].
        -- unfold extend in Hp. rewrite Ht in Hp.
           injection Hp as <- <- <-.
           exists first, (others ++ [other]). split.
           ++ rewrite Hlog, map_app. reflexivity.
           ++ rewrite (merge_snoc _ _ _ _ Hmerge). unfold extend.
              rewrite Ht. reflexivity.
        -- injection Hp as <- <- <-. exists first, others.
           split; [exact Hmerge|]. right. rewrite Hlog. auto.
  - unfold step in E.
    destruct (optimizer st) as [since|rollout|rollout|e] eqn:Ho;
      try (destruct (runner st); discriminate).
    destruct (Queue.try_get (queue st)) as [[? ?]|];
      try (destruct (runner st); discriminate).
    destruct (Rle_dec (since + get_timeout) (now st));
      try (destruct (runner st); discriminate).
    assert (E' : optimizer st' = PullRaised Empty /\
                 log st' = log st ++ [GetTimedOut])
      by (destruct (runner st); injection E as <-; auto).
    destruct E' as [Eo El]. unfold pull_spec in *.
    rewrite Ho in H. rewrite Eo, El, H. auto.
  - unfold step in E.
    destruct (optimizer st) as [since|rollout|rollout|e] eqn:Ho;
      try (destruct (runner st); discriminate).
    assert (E' : optimizer st' = PullGet (now st) /\ log st' = [])
      by (destruct (runner st); injection E as <-; auto).
    destruct E' as [Eo El]. unfold pull_spec. rewrite Eo. exact El.
Qed.

(** The exception of a call that raised stays: nothing retries the call. *)
Lemma step_raised l st st' e :
  optimizer st = PullRaised e -> step l st = Some st' ->
  optimizer st' = PullRaised e /\ log st' = log st /\ queue st' = queue st \/
  optimizer st' = PullRaised e /\ log st' = log st /\
  exists item, l = RunnerPut /\
               Queue.items (queue st') = Queue.items (queue st) ++ [item].
Proof.
  intros Ho E. unfold step in E. rewrite Ho in E.
  destruct l as [dt|item| | | | |].
  - destruct (Rle_dec 0 dt); [|discriminate]. injection E as <-. simpl. auto.
  - destruct (runner st); try discriminate. injection E as <-. simpl. auto.
  - destruct (runner st) as [|item since|e']; try discriminate.
    unfold Queue.try_put in E.
    destruct (Queue.full (queue st)); [discriminate|].
    injection E as <-. simpl. right. eauto.
  - destruct (runner st) as [|item since|e']; try discriminate.
    destruct (Queue.full (queue st)); [|discriminate].
    destruct (Rle_dec (since + put_timeout) (now st)); [|discriminate].
    injection E as <-. simpl. auto.
  - destruct (runner st); discriminate.
  - destruct (runner st); discriminate.
  - destruct (runner st); discriminate.
Qed.

Lemma exec_raised e : forall sched st,
  optimizer st = PullRaised e ->
  optimizer (exec sched st) = PullRaised e /\ log (exec sched st) = log st.
Proof.
  induction sched as [|l sched IH]; intros st Ho; simpl; [auto|].
  destruct (step l st) as [st'|] eqn:E; [|apply IH; exact Ho].
  destruct (step_raised _ _ _ _ Ho E) as [(Ho' & Hl & _) | (Ho' & Hl & _)];
    destruct (IH st' Ho') as [H1 H2]; split; congruence.
Qed.

(** The while loop on a queue that nothing else touches: it takes the items
    [others] off the head, in order, and stops when the rollout has become
    terminal or nothing is left. *)
Lemma drain_spec : forall items rollout,
  exists others rest rollout',
    drain rollout items = (Returns rollout', rest) /\
    items = others ++ rest /\
    merge rollout others = Returns rollout' /\
    (terminal rollout' = true \/ (terminal rollout' = false /\ rest = [])).
Proof.
  induction items as [|other items IH]; intros rollout; simpl.
  - exists [], [], rollout.
    destruct (terminal rollout) eqn:Ht; simpl; rewrite ?Ht; tauto.
  - destruct (terminal rollout) eqn:Ht; simpl.
    + exists [], (other :: items), rollout. rewrite Ht. tauto.
    + unfold extend at 1. rewrite Ht.
      match goal with |- context [drain ?r items] =>
        destruct (IH r) as (others & rest & r' & Hd & Hi & Hm & Hstop)
      end.
      exists (other :: others), rest, r'.
      rewrite Hd, Hi. simpl. unfold extend at 1. rewrite Ht. simpl. tauto.
Qed.

Lemma exec_cons l sched st :
  exec (l :: sched) st =
    match step l st with
    | Some st' => exec sched st'
    | None => exec sched st
    end.
Proof. reflexivity. Qed.

Lemma exec_optimizer_done k : forall st rollout,
  optimizer st = PullReturned rollout ->
  exec (repeat OptimizerStep k) st = st.
Proof.
  induction k as [|k IH]; intros st rollout Ho; [reflexivity|].
  cbn [repeat exec]. rewrite step_optimizer, Ho. cbn [pull_step].
  eapply IH; eauto.
Qed.

(** The steps of the optimizer alone run the loop to its end. *)
Lemma exec_drain : forall items rollout mx rn t lg y rm ls,
  exists lg' rm',
    exec (repeat OptimizerStep (S (length items)))
      (mkSystem (Queue.mk mx items) rn (PullWhile rollout) t lg y rm ls) =
    mkSystem (Queue.mk mx (snd (drain rollout items))) rn
      (match fst (drain rollout items) with
       | Returns rollout' => PullReturned rollout'
       | Raises e => PullRaised e
       end) t lg' y rm' ls.
Proof.
  induction items as [|other items IH]; intros rollout mx rn t lg y rm ls.
  - cbn [length repeat exec]. rewrite step_optimizer.
    cbn [optimizer queue pull_step drain].
    destruct (terminal rollout); simpl; eauto.
  - remember (length items) as k eqn:Hk.
    change (length (other :: items)) with (S (length items)).
    rewrite <- Hk.
    change (repeat OptimizerStep (S (S k)))
      with (OptimizerStep :: repeat OptimizerStep (S k)).
    rewrite exec_cons, step_optimizer.
    cbn [optimizer queue pull_step drain].
    destruct (terminal rollout) eqn:Ht; cbn [negb].
    + cbn [runner now log yielded removed lost fst snd].
      rewrite (exec_optimizer_done _ _ rollout) by reflexivity. eauto.
    + unfold Queue.get_nowait, Queue.try_get. cbn [Queue.items Queue.maxsize].
      unfold extend at 1 2 3. rewrite Ht.
      cbn [runner now log yielded removed lost].
      subst k.
      match goal with |- context [drain ?r items] =>
        destruct (IH r mx rn t (lg ++ [GetNowait other]) y
                    (count_removed [GetNowait other] + rm)%nat ls)
          as (lg' & rm' & Hx)
      end.
      exists lg', rm'. exact Hx.
Qed.

Lemma pull_call_spec q rn t0 : pull_spec (pull_call q rn t0).
Proof. reflexivity. Qed.

(** C7. A call of [pull_batch_from_queue], whatever the runner does
    meanwhile: in every state the call can reach, its queue operations are
    exactly one blocking [get] that returned a fragment, followed by
    [get_nowait]s only, and the rollout it holds is the in-order merge of
    the fragments it removed; it returns either with a terminal rollout and
    no further operation, or with a non-terminal one straight after a
    [get_nowait] that found the queue empty; the only exception is the
    [Empty] of the blocking [get], raised on an empty queue [600] seconds
    after the [get] was entered, with no other queue operation, and it
    stays.  When nothing else touches the queue, the call raises [Empty] on
    an empty queue, and otherwise returns the merge of the longest head of
    the queue whose merges are all non-terminal but the last, leaves the
    rest of the queue, and the steps of the optimizer reach that return. *)
Theorem pull_batch_from_queue_spec :
  forall (q : Queue.t) (rn : runner_pc) (t0 : R),
    (forall sched, pull_spec (exec sched (pull_call q rn t0))) /\
    (forall sched e,
        optimizer (exec sched (pull_call q rn t0)) = PullRaised e ->
        e = Empty /\
        forall sched',
          optimizer (exec sched' (exec sched (pull_call q rn t0))) =
            PullRaised Empty /\
          log (exec sched' (exec sched (pull_call q rn t0))) = [GetTimedOut]) /\
    (forall sched st',
        step OptimizerGetTimeout (exec sched (pull_call q rn t0)) = Some st' ->
        exists since,
          optimizer (exec sched (pull_call q rn t0)) = PullGet since /\
          since + 600 <= now (exec sched (pull_call q rn t0)) /\
          Queue.items (queue (exec sched (pull_call q rn t0))) = [] /\
          optimizer st' = PullRaised Empty) /\
    (Queue.items q = [] -> pull_batch_from_queue q = (Raises Empty, q)) /\
    (forall first rest0,
        Queue.items q = first :: rest0 ->
        exists others rest rollout,
          pull_batch_from_queue q =
            (Returns rollout, Queue.mk (Queue.maxsize q) rest) /\
          rest0 = others ++ rest /\
          merge first others = Returns rollout /\
          (terminal rollout = true \/ (terminal rollout = false /\ rest = [])) /\
          (forall before other after,
              others = before ++ other :: after ->
              exists r1, merge first before = Returns r1 /\ terminal r1 = false) /\
          optimizer (exec (repeat OptimizerStep (S (length (Queue.items q))))
                       (pull_call q rn t0)) = PullReturned rollout /\
          queue (exec (repeat OptimizerStep (S (length (Queue.items q))))
                   (pull_call q rn t0)) = Queue.mk (Queue.maxsize q) rest).
Proof.
  intros q rn t0.
  assert (Hspec : forall sched, pull_spec (exec sched (pull_call q rn t0)))
    by (intros sched; apply exec_invariant;
        [exact step_pull_spec | apply pull_call_spec]).
  split; [exact Hspec|]. split; [|split; [|split]].
  - intros sched e Ho.
    pose proof (Hspec sched) as Hs. unfold pull_spec in Hs. rewrite Ho in Hs.
    destruct Hs as [-> Hlog]. split; [reflexivity|].
    intros sched'. destruct (exec_raised Empty sched' _ Ho) as [H1 H2].
    split; congruence.
  - intros sched st' E. unfold step in E.
    destruct (optimizer (exec sched (pull_call q rn t0)))
      as [since|rollout|rollout|e];
      try (destruct (runner (exec sched (pull_call q rn t0))); discriminate).
    unfold Queue.try_get in E.
    destruct (Queue.items (queue (exec sched (pull_call q rn t0))))
      as [|item rest] eqn:Hi;
      try (destruct (runner (exec sched (pull_call q rn t0))); discriminate).
    destruct (Rle_dec (since + get_timeout)
                (now (exec sched (pull_call q rn t0)))) as [Ht|];
      try (destruct (runner (exec sched (pull_call q rn t0))); discriminate).
    exists since. repeat split; try assumption.
    destruct (runner (exec sched (pull_call q rn t0)));
      injection E as <-; reflexivity.
  - intros Hi. unfold pull_batch_from_queue, Queue.try_get. rewrite Hi.
    reflexivity.
  - intros first rest0 Hi.
    destruct (drain_spec rest0 first)
      as (others & rest & rollout & Hd & Hr & Hm & Hstop).
    exists others, rest, rollout.
    split; [|split; [exact Hr|split; [exact Hm|split; [exact Hstop|split]]]].
    + unfold pull_batch_from_queue, Queue.try_get. rewrite Hi.
      cbn [Queue.items]. rewrite Hd. reflexivity.
    + intros before other after ->. eapply merge_prefix_open; eauto.
    + rewrite Hi. cbn [length].
      change (repeat OptimizerStep (S (S (length rest0))))
        with (OptimizerStep :: repeat OptimizerStep (S (length rest0))).
      rewrite exec_cons, step_optimizer.
      destruct q as [mx items]. cbn [Queue.items] in Hi. subst items.
      cbn [pull_call optimizer queue pull_step Queue.try_get Queue.items
           Queue.maxsize runner now log yielded removed lost].
      match goal with |- context [exec _ ?s] =>
        match s with
        | mkSystem _ _ _ _ ?lg ?y ?rm ?ls =>
            destruct (exec_drain rest0 first mx rn t0 lg y rm ls)
              as (lg' & rm' & Hx)
        end
      end.
      rewrite Hx, Hd. split; reflexivity.
Qed.

Lemma try_put_full item q :
  Queue.maxsize q = 5%nat -> Queue.qsize q = 5%nat -> Queue.try_put item q = None.
Proof.
  unfold Queue.try_put, Queue.full. intros -> ->. reflexivity.
Qed.

Lemma try_put_room item q :
  Queue.maxsize q = 5%nat -> (Queue.qsize q < 5)%nat ->
  Queue.try_put item q = Some (Queue.mk 5 (Queue.items q ++ [item])).
Proof.
  unfold Queue.try_put, Queue.full. intros -> H.
  change (0 <? 5)%nat with true. cbn [andb].
  destruct (Nat.leb_spec 5 (Queue.qsize q)); [lia | reflexivity].
Qed.

Lemma step_put_room st item since :
  runner st = RunPut item since ->
  Queue.maxsize (queue st) = 5%nat ->
  (Queue.qsize (queue st) < 5)%nat ->
  step RunnerPut st =
    Some (mkSystem (Queue.mk 5 (Queue.items (queue st) ++ [item])) RunNext
            (optimizer st) (now st) (log st) (yielded st) (removed st)
            (lost st)).
Proof.
  intros Hr Hmax Hroom. unfold step.
  rewrite Hr, (try_put_room item _ Hmax Hroom).
  destruct (optimizer st); reflexivity.
Qed.

(** While the runner is inside a [put] on a full queue whose timeout has not
    passed, no step of the system moves it. *)
Lemma runner_suspended l st st' item since :
  Queue.maxsize (queue st) = 5%nat ->
  Queue.qsize (queue st) = 5%nat ->
  runner st = RunPut item since ->
  now st < since + put_timeout ->
  step l st = Some st' ->
  runner st' = RunPut item since /\ now st <= now st'.
Proof.
  intros Hmax Hfull Hr Hnow E. unfold step in E. rewrite Hr in E.
  destruct l as [dt|item'| | | | |].
  - destruct (Rle_dec 0 dt); [|discriminate].
    injection E as <-. simpl. split; [reflexivity | lra].
  - destruct (optimizer st); discriminate.
  - rewrite (try_put_full item _ Hmax Hfull) in E.
    destruct (optimizer st); discriminate.
  - destruct (Queue.full (queue st));
      [|destruct (optimizer st); discriminate].
    destruct (Rle_dec (since + put_timeout) (now st)); [lra|].
    destruct (optimizer st); discriminate.
  - destruct (pull_step (optimizer st) (queue st)) as [[[pc' q'] ops]|];
      [|discriminate].
    injection E as <-. simpl. split; [reflexivity | lra].
  - destruct (optimizer st); try discriminate.
    destruct (Queue.try_get (queue st)) as [[? ?]|]; [discriminate|].
    destruct (Rle_dec (since0 + get_timeout) (now st)); [|discriminate].
    injection E as <-. simpl. split; [reflexivity | lra].
  - destruct (optimizer st); try discriminate.
    injection E as <-. simpl. split; [reflexivity | lra].
Qed.

(** C8. In every state the two threads can reach from the start of the
    runner, under any schedule: the queue is the one of capacity [5] and
    holds at most [5] fragments; the runner holds at most one fragment
    outside it, so that it is never more than [6] fragments ahead of the
    optimizer; a runner that is inside [put] on a full queue cannot put, is
    moved by no step before [600] seconds have passed since it entered the
    [put], can leave it only with [Full] after that, and puts its fragment
    at the tail as soon as the optimizer has removed one. *)
Theorem runner_backpressure :
  forall sched : list label,
    let st := exec sched system_init in
    Queue.maxsize (queue st) = 5%nat /\
    (Queue.qsize (queue st) <= 5)%nat /\
    (in_hand (runner st) <= 1)%nat /\
    (yielded st =
       removed st + Queue.qsize (queue st) + in_hand (runner st) + lost st)%nat /\
    (yielded st <= removed st + 5 + 1)%nat /\
    (forall item since,
        runner st = RunPut item since ->
        Queue.qsize (queue st) = 5%nat ->
        step RunnerPut st = None /\
        (forall st',
            step RunnerPutTimeout st = Some st' ->
            since + 600 <= now st /\ runner st' = RunDead Full /\
            queue st' = queue st) /\
        (now st < since + 600 ->
         forall l st', step l st = Some st' -> runner st' = RunPut item since) /\
        (forall st',
            step OptimizerStep st = Some st' ->
            removed st' = S (removed st) ->
            exists st'',
              step RunnerPut st' = Some st'' /\ runner st'' = RunNext /\
              Queue.items (queue st'') = Queue.items (queue st') ++ [item])) /\
    (forall item since,
        runner st = RunPut item since ->
        (Queue.qsize (queue st) < 5)%nat ->
        exists st',
          step RunnerPut st = Some st' /\ runner st' = RunNext /\
          Queue.items (queue st') = Queue.items (queue st) ++ [item]).
Proof.
  intros sched st.
  assert (Hinv : backpressure_inv st)
    by (apply exec_invariant;
        [exact step_backpressure | exact system_init_backpressure]).
  destruct Hinv as (Hmax & Hsize & Hbooks & Hlost & Hdead).
  split; [exact Hmax|]. split; [exact Hsize|].
  assert (Hhand : (in_hand (runner st) <= 1)%nat)
    by (destruct (runner st); simpl; lia).
  split; [exact Hhand|]. split; [exact Hbooks|]. split.
  { destruct (lost st) as [|[|n]] eqn:Hl; [lia| |lia].
    rewrite (Hdead eq_refl) in Hbooks. simpl in Hbooks. lia. }
  split.
  - intros item since Hr Hfull. split; [|split; [|split]].
    + unfold step. rewrite Hr, (try_put_full item _ Hmax Hfull).
      destruct (optimizer st); reflexivity.
    + intros st' E. unfold step in E. rewrite Hr in E.
      destruct (Queue.full (queue st));
        [|destruct (optimizer st); discriminate].
      destruct (Rle_dec (since + put_timeout) (now st)) as [Ht|];
        [|destruct (optimizer st); discriminate].
      assert (E' : st' = mkSystem (queue st) (RunDead Full) (optimizer st)
                           (now st) (log st) (yielded st) (removed st)
                           (S (lost st)))
        by (destruct (optimizer st); congruence).
      subst st'. simpl. unfold put_timeout in Ht. auto.
    + intros Hnow l st' E.
      eapply runner_suspended; eauto.
    + intros st' E Hrem.
      assert (Hr' : runner st' = RunPut item since /\
                    Queue.maxsize (queue st') = 5%nat /\
                    (Queue.qsize (queue st') < 5)%nat).
      { unfold step in E. rewrite Hr in E.
        destruct (pull_step (optimizer st) (queue st))
          as [[[pc' q'] ops]|] eqn:Hp; [|discriminate].
        injection E as <-. simpl in *.
        apply pull_step_books in Hp. destruct Hp as [Hm Hq].
        repeat split; [congruence | lia]. }
      destruct Hr' as (Hr' & Hmax' & Hroom).
      eexists. split; [apply (step_put_room _ item since); assumption|].
      simpl. auto.
  - intros item since Hr Hroom.
    eexists. split; [apply (step_put_room _ item since); assumption|].
    simpl. auto.
Qed.

(** ** Runs *)

(** A queue of three fragments: the call merges the open fragment with the
    closed one that follows it and leaves the third. *)
Example pull_batch_stops_at_terminal :
  exists rollout,
    pull_batch_from_queue
      (Queue.mk 5 [fragment_open; fragment_closed; fragment_open]) =
      (Returns rollout, Queue.mk 5 [fragment_open]) /\
    rewards rollout = [1; 1; 1; 2; 3] /\
    terminal rollout = true /\
    manager_r rollout = 0.
Proof.
  eexists. split; [reflexivity|]. simpl. auto.
Qed.

(** Two open fragments: the call takes both and returns on the empty
    queue, with the bootstraps of the second. *)
Example pull_batch_stops_at_empty :
  exists rollout,
    pull_batch_from_queue (Queue.mk 5 [fragment_open; fragment_open]) =
      (Returns rollout, Queue.mk 5 []) /\
    rewards rollout = [1; 1; 1; 1] /\
    terminal rollout = false /\
    manager_r rollout = 4.
Proof.
  eexists. split; [reflexivity|]. simpl. auto.
Qed.

(** The runner yields and puts six times while the optimizer sleeps: five
    fragments are in the queue and the runner is inside the sixth [put]. *)
Example runner_blocks_on_sixth_put :
  let sched :=
    concat (repeat [RunnerYield fragment_open; RunnerPut] 6) in
  Queue.qsize (queue (exec sched system_init)) = 5%nat /\
  runner (exec sched system_init) = RunPut fragment_open 0 /\
  step RunnerPut (exec sched system_init) = None.
Proof.
  cbv zeta. cbn [repeat concat app].
  repeat split; reflexivity.
Qed.

(** * More of the code *)

(** ** discount and process_rollout: closed form, edge and composition *)

Lemma power_sum_shift gamma : forall l k,
  power_sum_from gamma (S k) l = gamma * power_sum_from gamma k l.
Proof.
  induction l as [|x l IH]; intros k; simpl.
  - ring.
  - rewrite IH. simpl. ring.
Qed.

Lemma power_sum_snoc gamma V : forall l k,
  power_sum_from gamma k (l ++ [V]) =
  power_sum_from gamma k l + gamma ^ (k + length l) * V.
Proof.
  induction l as [|x l IH]; intros k; simpl.
  - rewrite Nat.add_0_r. ring.
  - rewrite IH. replace (S k + length l)%nat with (k + S (length l))%nat by lia.
    ring.
Qed.

(** Each entry of [discount x gamma] is the discounted sum of the entries
    of [x] from there on. *)
Lemma discount_power_sum gamma : forall x i,
  nth i (discount x gamma) 0 = power_sum_from gamma 0 (skipn i x).
Proof.
  induction x as [|xk x IH]; intros i.
  - destruct i; reflexivity.
  - rewrite discount_cons. destruct i as [|i].
    + simpl. rewrite power_sum_shift.
      replace (hd 0 (discount x gamma)) with (nth 0 (discount x gamma) 0)
        by (destruct (discount x gamma); reflexivity).
      rewrite IH. simpl. ring.
    + simpl. apply IH.
Qed.

(** X1. The [i]-th return of each stream is the explicit discounted sum
    [r[i] + gamma r[i+1] + ... + gamma^(n-1-i) r[n-1] + gamma^(n-i) V]. *)
Theorem process_rollout_closed_form :
  forall (rollout : PartialRollout) (manager_gamma worker_gamma lambda_ : R)
         (i : nat),
    (i < length (rewards rollout))%nat ->
    exists b,
      process_rollout rollout manager_gamma worker_gamma lambda_ = Returns b /\
      nth i (Batch.manager_returns b) 0 =
        power_sum_from manager_gamma 0 (skipn i (rewards rollout)) +
        manager_gamma ^ (length (rewards rollout) - i) * manager_r rollout /\
      nth i (Batch.worker_returns b) 0 =
        power_sum_from worker_gamma 0 (skipn i (rewards rollout)) +
        worker_gamma ^ (length (rewards rollout) - i) * worker_r rollout.
Proof.
  intros rollout gm gw lam i Hi. eexists. split; [reflexivity|]. simpl.
  assert (H : forall gamma V,
             nth i (drop_last (discount (rewards rollout ++ [V]) gamma)) 0 =
             power_sum_from gamma 0 (skipn i (rewards rollout)) +
             gamma ^ (length (rewards rollout) - i) * V).
  { intros gamma V.
    rewrite nth_drop_last
      by (rewrite discount_length, length_app; simpl; lia).
    rewrite discount_power_sum, skipn_app.
    replace (i - length (rewards rollout))%nat with 0%nat by lia.
    simpl skipn. rewrite power_sum_snoc, length_skipn. reflexivity. }
  split; apply H.
Qed.

(** The second and the third return of [fragment_closed]. *)
Lemma process_rollout_closed_form_witness :
  exists b,
    process_rollout fragment_closed (1 / 2) (9 / 10) 1 = Returns b /\
    nth 1 (Batch.manager_returns b) 0 =
      power_sum_from (1 / 2) 0 (skipn 1 (rewards fragment_closed)) +
      (1 / 2) ^ (length (rewards fragment_closed) - 1) *
      manager_r fragment_closed /\
    nth 1 (Batch.worker_returns b) 0 =
      power_sum_from (9 / 10) 0 (skipn 1 (rewards fragment_closed)) +
      (9 / 10) ^ (length (rewards fragment_closed) - 1) *
      worker_r fragment_closed.
Proof.
  apply (process_rollout_closed_form fragment_closed (1 / 2) (9 / 10) 1 1).
  simpl. lia.
Defined.

Lemma discount_zero : forall x, discount x 0 = x.
Proof.
  induction x as [|xk x IH]; [reflexivity|].
  rewrite discount_cons, IH. f_equal. ring.
Qed.

(** X2. With both factors [0] the two return streams are the rewards
    themselves, whatever the bootstraps, also for the empty rollout. *)
Theorem process_rollout_gamma_zero :
  forall (rollout : PartialRollout) (lambda_ : R),
    exists b,
      process_rollout rollout 0 0 lambda_ = Returns b /\
      Batch.manager_returns b = rewards rollout /\
      Batch.worker_returns b = rewards rollout.
Proof.
  intros rollout lam. eexists. split; [reflexivity|]. simpl.
  unfold drop_last. rewrite !discount_zero, !removelast_last. auto.
Qed.

Lemma discount_hd_snoc gamma y : forall x,
  hd 0 (discount (x ++ [hd 0 (discount y gamma)]) gamma) =
  hd 0 (discount (x ++ y) gamma).
Proof.
  intros [|xk x]; simpl app.
  - rewrite discount_cons. simpl. ring.
  - revert xk. induction x as [|x1 x IH]; intros xk.
    + simpl app. rewrite !discount_cons.
      destruct y as [|y0 y]; simpl; [ring|].
      rewrite discount_cons. simpl. ring.
    + simpl app. rewrite (discount_cons gamma xk), (discount_cons gamma xk).
      simpl hd. f_equal. f_equal. apply IH.
Qed.

Lemma drop_last_cons {A} (x : A) (l : list A) :
  l <> [] -> drop_last (x :: l) = x :: drop_last l.
Proof. destruct l; [congruence | reflexivity]. Qed.

(** The pass over [x ++ y] is the pass over [y], preceded by the pass over
    [x] with the first entry of the pass over [y] as its bootstrap. *)
Lemma discount_app gamma y : forall x,
  discount (x ++ y) gamma =
  drop_last (discount (x ++ [hd 0 (discount y gamma)]) gamma) ++
  discount y gamma.
Proof.
  induction x as [|xk x IH].
  - reflexivity.
  - change ((xk :: x) ++ y) with (xk :: (x ++ y)).
    change ((xk :: x) ++ [hd 0 (discount y gamma)])
      with (xk :: (x ++ [hd 0 (discount y gamma)])).
    rewrite !discount_cons, discount_hd_snoc.
    rewrite drop_last_cons.
    + simpl app. f_equal. exact IH.
    + intros E. apply (f_equal (@length R)) in E.
      rewrite discount_length, length_app in E. simpl in E. lia.
Qed.

Lemma hd_drop_last {A} (l : list A) d :
  (2 <= length l)%nat -> hd d (drop_last l) = hd d l.
Proof.
  destruct l as [|x [|y l]]; simpl; intros H; try lia. reflexivity.
Qed.

Lemma returns_app gamma (rA rB : list R) (V : R) :
  (1 <= length rB)%nat ->
  drop_last (discount ((rA ++ rB) ++ [V]) gamma) =
  drop_last
    (discount (rA ++ [hd 0 (drop_last (discount (rB ++ [V]) gamma))]) gamma) ++
  drop_last (discount (rB ++ [V]) gamma).
Proof.
  intros HB.
  assert (HL : length (discount (rB ++ [V]) gamma) = S (length rB))
    by (rewrite discount_length, length_app; simpl; lia).
  rewrite hd_drop_last by lia.
  rewrite <- app_assoc, discount_app.
  unfold drop_last at 1. rewrite removelast_app; [reflexivity|].
  intros E. rewrite E in HL. simpl in HL. lia.
Qed.

(** X3. Merging and then computing returns composes: for a non-terminal
    [A] and a [B] of at least one step, each return stream of the merged
    rollout is the stream of [B], preceded by the stream of [A] computed
    with the first return of [B] as the bootstrap of [A]; the bootstraps
    that [A] had play no part. *)
Theorem process_rollout_extend :
  forall (A B : PartialRollout) (manager_gamma worker_gamma lambda_ : R),
    terminal A = false ->
    (1 <= length (rewards B))%nat ->
    exists AB bAB bA bB,
      extend A B = Returns AB /\
      process_rollout AB manager_gamma worker_gamma lambda_ = Returns bAB /\
      process_rollout B manager_gamma worker_gamma lambda_ = Returns bB /\
      process_rollout
        (set_bootstrap A (hd 0 (Batch.manager_returns bB))
           (hd 0 (Batch.worker_returns bB)))
        manager_gamma worker_gamma lambda_ = Returns bA /\
      Batch.manager_returns bAB =
        Batch.manager_returns bA ++ Batch.manager_returns bB /\
      Batch.worker_returns bAB =
        Batch.worker_returns bA ++ Batch.worker_returns bB.
Proof.
  intros A B gm gw lam HA HB.
  unfold extend. rewrite HA. do 4 eexists.
  split; [reflexivity|]. split; [reflexivity|]. split; [reflexivity|].
  split; [reflexivity|]. simpl.
  split; apply returns_app; exact HB.
Qed.

(** [fragment_open] followed by [fragment_closed]. *)
Lemma process_rollout_extend_witness :
  exists AB bAB bA bB,
    extend fragment_open fragment_closed = Returns AB /\
    process_rollout AB (1 / 2) (9 / 10) 1 = Returns bAB /\
    process_rollout fragment_closed (1 / 2) (9 / 10) 1 = Returns bB /\
    process_rollout
      (set_bootstrap fragment_open (hd 0 (Batch.manager_returns bB))
         (hd 0 (Batch.worker_returns bB)))
      (1 / 2) (9 / 10) 1 = Returns bA /\
    Batch.manager_returns bAB =
      Batch.manager_returns bA ++ Batch.manager_returns bB /\
    Batch.worker_returns bAB =
      Batch.worker_returns bA ++ Batch.worker_returns bB.
Proof.
  apply (process_rollout_extend fragment_open fragment_closed
           (1 / 2) (9 / 10) 1).
  - reflexivity.
  - simpl. lia.
Defined.

(** ** PartialRollout: what adds and merges build *)

Lemma fold_add_fields : forall ts self,
  let r := fold_left add ts self in
  states r = states self ++ map t_state ts /\
  actions r = actions self ++ map t_action ts /\
  rewards r = rewards self ++ map t_reward ts /\
  values r = values self ++ map t_value ts /\
  ss r = ss self ++ map t_s ts /\
  gs r = gs self ++ map t_g ts /\
  features r = features self ++ map t_features ts /\
  manager_r r = manager_r self /\
  worker_r r = worker_r self.
Proof.
  induction ts as [|t ts IH]; intros self; cbv zeta.
  - simpl. rewrite !app_nil_r. repeat split; reflexivity.
  - simpl fold_left. specialize (IH (add self t)). cbv zeta in IH.
    destruct IH as (H1 & H2 & H3 & H4 & H5 & H6 & H7 & H8 & H9).
    simpl in *. rewrite <- !app_assoc in *. simpl in *.
    repeat split; assumption.
Qed.

(** X4. The rollout built from [PartialRollout()] by any adds records the
    transitions in their order: each of its seven sequences is the
    corresponding component of the transitions added, [g] into [gs] and [s]
    into [ss], so all have the number of adds as their length; the
    bootstraps stay [0.0]. *)
Theorem adds_record_transitions :
  forall ts : list transition,
    let r := fold_left add ts PartialRollout_init in
    states r = map t_state ts /\
    actions r = map t_action ts /\
    rewards r = map t_reward ts /\
    values r = map t_value ts /\
    ss r = map t_s ts /\
    gs r = map t_g ts /\
    features r = map t_features ts /\
    manager_r r = 0 /\ worker_r r = 0 /\
    steps (length ts) r.
Proof.
  intros ts r.
  destruct (fold_add_fields ts PartialRollout_init)
    as (H1 & H2 & H3 & H4 & H5 & H6 & H7 & H8 & H9).
  fold r in H1, H2, H3, H4, H5, H6, H7, H8, H9. simpl in *.
  unfold steps. rewrite H1, H2, H3, H4, H5, H6, H7, !length_map.
  repeat split; assumption.
Qed.

Lemma last_default {A B} (f : A -> B) : forall (l : list A) d d',
  f d = f d' -> f (last l d) = f (last l d').
Proof.
  induction l as [|x l IH]; intros d d' H; [exact H|].
  rewrite !last_cons. reflexivity.
Qed.

Lemma merge_last : forall others first rollout,
  merge first others = Returns rollout ->
  terminal rollout = terminal (last others first) /\
  manager_r rollout = manager_r (last others first) /\
  worker_r rollout = worker_r (last others first).
Proof.
  induction others as [|other others IH]; intros first rollout H; simpl in H.
  - injection H as <-. simpl. auto.
  - unfold extend in H. destruct (terminal first); simpl in H; [discriminate|].
    apply IH in H. destruct H as (H1 & H2 & H3).
    rewrite last_cons.
    rewrite H1, H2, H3.
    repeat split; apply last_default; reflexivity.
Qed.

Lemma merge_seqs : forall others first rollout,
  merge first others = Returns rollout ->
  states rollout = concat (map states (first :: others)) /\
  actions rollout = concat (map actions (first :: others)) /\
  rewards rollout = concat (map rewards (first :: others)) /\
  values rollout = concat (map values (first :: others)) /\
  ss rollout = concat (map ss (first :: others)) /\
  gs rollout = concat (map gs (first :: others)) /\
  features rollout = concat (map features (first :: others)).
Proof.
  induction others as [|other others IH]; intros first rollout H; simpl in H.
  - injection H as <-. simpl. rewrite !app_nil_r.
    repeat split; reflexivity.
  - unfold extend in H. destruct (terminal first); simpl in H; [discriminate|].
    apply IH in H. simpl in *. rewrite <- !app_assoc in H. exact H.
Qed.

Lemma merge_concat : forall others first rollout,
  merge first others = Returns rollout ->
  concat_of (first :: others) rollout.
Proof.
  intros others first rollout H. unfold concat_of.
  destruct (merge_seqs _ _ _ H) as (H1 & H2 & H3 & H4 & H5 & H6 & H7).
  destruct (merge_last _ _ _ H) as (H8 & H9 & H10).
  rewrite last_cons. repeat split; assumption.
Qed.

Lemma concat_of_steps : forall taken rollout,
  concat_of taken rollout ->
  Forall (fun f => steps (length (rewards f)) f) taken ->
  steps (list_sum (map (fun f => length (rewards f)) taken)) rollout.
Proof.
  intros taken rollout (H1 & H2 & H3 & H4 & H5 & H6 & H7 & _) HF.
  unfold steps. rewrite H1, H2, H3, H4, H5, H6, H7. clear - HF.
  induction HF as [|f taken (F1 & F2 & F3 & F4 & F5 & F6 & F7) _ IH]; simpl.
  - repeat split; reflexivity.
  - rewrite !length_app.
    destruct IH as (I1 & I2 & I3 & I4 & I5 & I6 & I7).
    repeat split; congruence.
Qed.

(** X5. Merging keeps the shape: when every fragment has all its sequences
    of one length and the merge of [others] into [first] returns, the
    merged rollout has all its sequences of one length too, the sum of the
    numbers of steps of the fragments. *)
Theorem merge_keeps_shape :
  forall (first : PartialRollout) (others : list PartialRollout)
         (rollout : PartialRollout),
    Forall (fun f => steps (length (rewards f)) f) (first :: others) ->
    merge first others = Returns rollout ->
    steps (list_sum (map (fun f => length (rewards f)) (first :: others)))
      rollout.
Proof.
  intros first others rollout HF H.
  apply concat_of_steps; [apply merge_concat; exact H | exact HF].
Qed.

Lemma fragment_open_steps :
  steps (length (rewards fragment_open)) fragment_open.
Proof. unfold steps. simpl. repeat split; reflexivity. Qed.

Lemma fragment_closed_steps :
  steps (length (rewards fragment_closed)) fragment_closed.
Proof. unfold steps. simpl. repeat split; reflexivity. Qed.

(** Two open fragments and a closed one. *)
Lemma merge_keeps_shape_witness :
  exists rollout,
    merge fragment_open [fragment_open; fragment_closed] = Returns rollout /\
    steps 7 rollout.
Proof.
  eexists. split; [reflexivity|].
  apply (merge_keeps_shape fragment_open [fragment_open; fragment_closed]).
  - repeat constructor; simpl; reflexivity.
  - reflexivity.
Defined.

(** ** pull_batch_from_queue: nothing lost, nothing reordered *)

(** X6. When nothing else touches the queue, a call that returns has taken
    a non-empty head of the queue and left the rest as it was: the seven
    sequences of the rollout it returns are those of the fragments taken,
    one after the other, and its flag and bootstraps are those of the last
    fragment taken. *)
Theorem pull_batch_conserves :
  forall (q q' : Queue.t) (rollout : PartialRollout),
    pull_batch_from_queue q = (Returns rollout, q') ->
    exists taken,
      taken <> [] /\
      Queue.items q = taken ++ Queue.items q' /\
      Queue.maxsize q' = Queue.maxsize q /\
      concat_of taken rollout.
Proof.
  intros q q' rollout H. unfold pull_batch_from_queue, Queue.try_get in H.
  destruct (Queue.items q) as [|first rest0] eqn:Hi; [discriminate|].
  cbn [Queue.items] in H.
  destruct (drain_spec rest0 first)
    as (others & rest & r' & Hd & Hr & Hm & _).
  rewrite Hd in H. injection H as <- <-.
  exists (first :: others). cbn [Queue.items Queue.maxsize].
  split; [discriminate|]. split; [rewrite Hr; reflexivity|].
  split; [reflexivity|]. apply merge_concat. exact Hm.
Qed.

(** A queue of three fragments. *)
Lemma pull_batch_conserves_witness :
  exists taken,
    taken <> [] /\
    [fragment_open; fragment_closed; fragment_open] =
      taken ++ [fragment_open] /\
    5%nat = 5%nat /\
    concat_of taken
      (match extend fragment_open fragment_closed with
       | Returns r => r
       | Raises _ => PartialRollout_init
       end).
Proof.
  apply (pull_batch_conserves
           (Queue.mk 5 [fragment_open; fragment_closed; fragment_open])
           (Queue.mk 5 [fragment_open])).
  reflexivity.
Defined.

Lemma drain_terminal rollout items :
  terminal rollout = true -> drain rollout items = (Returns rollout, items).
Proof. intros H. destruct items; simpl; rewrite H; reflexivity. Qed.

Lemma drain_open : forall pre rollout,
  terminal rollout = false ->
  Forall (fun f => terminal f = false) pre ->
  exists rollout',
    merge rollout pre = Returns rollout' /\
    terminal rollout' = false /\
    forall rest, drain rollout (pre ++ rest) = drain rollout' rest.
Proof.
  induction pre as [|f pre IH]; intros rollout Ht HF.
  - exists rollout. simpl. auto.
  - inversion HF as [|? ? Hf HF']; subst.
    unfold extend in IH.
    destruct (IH (match extend rollout f with
                  | Returns r => r
                  | Raises _ => rollout
                  end)) as (r' & Hm & Ht' & Hd).
    + unfold extend. rewrite Ht. exact Hf.
    + exact HF'.
    + exists r'. unfold extend in *. rewrite Ht in *.
      split; [simpl; unfold extend; rewrite Ht; exact Hm|].
      split; [exact Ht'|].
      intros rest. simpl. rewrite Ht. simpl. unfold extend at 1.
      rewrite Ht. apply Hd.
Qed.

(** X7. A terminal fragment is where the call stops: on a queue that
    starts with the non-terminal fragments [pre] followed by a terminal
    [t], the call returns [pre] and [t] merged and leaves exactly what
    follows [t]; on a queue of non-terminal fragments only, it returns all
    of them merged and leaves the queue empty. *)
Theorem pull_batch_stops_at_first_terminal :
  forall (maxsize : nat) (pre post : list PartialRollout),
    Forall (fun f => terminal f = false) pre ->
    (forall t,
        terminal t = true ->
        exists rollout,
          pull_batch_from_queue (Queue.mk maxsize (pre ++ t :: post)) =
            (Returns rollout, Queue.mk maxsize post) /\
          concat_of (pre ++ [t]) rollout /\ terminal rollout = true) /\
    (pre <> [] ->
     exists rollout,
       pull_batch_from_queue (Queue.mk maxsize pre) =
         (Returns rollout, Queue.mk maxsize []) /\
       concat_of pre rollout /\ terminal rollout = false).
Proof.
  intros mx pre post HF. split.
  - intros t Ht. unfold pull_batch_from_queue, Queue.try_get.
    cbn [Queue.items Queue.maxsize].
    destruct pre as [|first pre].
    + simpl app. cbn [Queue.items]. rewrite (drain_terminal t post Ht).
      exists t. split; [reflexivity|]. split; [|exact Ht].
      apply (merge_concat [] t). reflexivity.
    + inversion HF as [|? ? Hf HF']; subst.
      destruct (drain_open pre first Hf HF') as (r' & Hm & Ht' & Hd).
      simpl app. cbn [Queue.items]. rewrite Hd.
      pose proof (merge_snoc _ _ _ t Hm) as Hs.
      unfold extend in Hs. rewrite Ht' in Hs.
      simpl drain. rewrite Ht'. simpl negb. cbv iota.
      unfold extend at 1. rewrite Ht'.
      rewrite drain_terminal by exact Ht.
      eexists. split; [reflexivity|]. split; [|exact Ht].
      apply (merge_concat (pre ++ [t]) first). exact Hs.
  - intros Hne. destruct pre as [|first pre]; [congruence|].
    inversion HF as [|? ? Hf HF']; subst.
    destruct (drain_open pre first Hf HF') as (r' & Hm & Ht' & Hd).
    unfold pull_batch_from_queue, Queue.try_get.
    cbn [Queue.items Queue.maxsize].
    specialize (Hd []). rewrite app_nil_r in Hd. rewrite Hd.
    simpl drain. rewrite Ht'. simpl.
    exists r'. split; [reflexivity|]. split; [|exact Ht'].
    apply merge_concat. exact Hm.
Qed.

(** Two open fragments, then a closed one, then another. *)
Lemma pull_batch_stops_at_first_terminal_witness :
  (forall t,
      terminal t = true ->
      exists rollout,
        pull_batch_from_queue
          (Queue.mk 5 ([fragment_open; fragment_open] ++ t :: [fragment_open])) =
          (Returns rollout, Queue.mk 5 [fragment_open]) /\
        concat_of ([fragment_open; fragment_open] ++ [t]) rollout /\
        terminal rollout = true) /\
  ([fragment_open; fragment_open] <> [] ->
   exists rollout,
     pull_batch_from_queue (Queue.mk 5 [fragment_open; fragment_open]) =
       (Returns rollout, Queue.mk 5 []) /\
     concat_of [fragment_open; fragment_open] rollout /\
     terminal rollout = false).
Proof.
  apply (pull_batch_stops_at_first_terminal 5
           [fragment_open; fragment_open] [fragment_open]).
  repeat constructor.
Defined.

(** ** env_runner: the fragments and the counters of the episode *)

Lemma deque_append_length {A} (maxlen : nat) (d : list A) (x : A) :
  length (deque_append maxlen d x) = Nat.min (S (length d)) maxlen.
Proof.
  unfold deque_append. cbv zeta. rewrite length_skipn, !length_app.
  simpl length. lia.
Qed.

Section EnvRunnerCounters.

Context {W : Type} (X : externals W).

(** The inner loop adds the transitions [ts] to the rollout, at most [k] of
    them, and either runs all its [k] iterations within one episode, or
    ends the episode with the last transition it adds. *)
Lemma collect_transitions : forall k l rollout w te l' r' w',
  collect X k l rollout w = ((te, l', r'), w') ->
  exists ts,
    r' = fold_left add ts rollout /\
    (length ts <= k)%nat /\
    (te = false ->
     length ts = k /\
     length_ l' = (length_ l + k)%nat /\
     rewards_ l' = fold_left Rplus (map t_reward ts) (rewards_ l) /\
     reward_list l' = reward_list l /\
     ((1 <= k)%nat -> (length_ l' < timestep_limit X)%nat)) /\
    (te = true ->
     (1 <= length ts)%nat /\
     length_ l' = 0%nat /\
     rewards_ l' = 0 /\
     reward_list l' =
       deque_append 30 (reward_list l)
         (fold_left Rplus (map t_reward ts) (rewards_ l)) /\
     (terminal r' = true \/
      (timestep_limit X <= length_ l + length ts)%nat)).
Proof.
  induction k as [|k IH]; intros l rollout w te l' r' w' E.
  - simpl in E. injection E as <- <- <- <-. exists [].
    split; [reflexivity|]. split; [simpl; lia|].
    split; [|discriminate]. intros _. simpl.
    repeat split; try lia.
  - simpl in E.
    destruct (policy_act X (last_state l) (last_c_g l) (last_features l) w)
      as [fe w1].
    destruct (env_step X (argmax (f_action fe)) w1)
      as [[[state reward] term] w2].
    set (t := mkTransition (last_state l) (f_action fe) reward (f_value fe)
                (f_g fe) (f_s fe) term (last_features l)) in *.
    destruct (term || (timestep_limit X <=? S (length_ l))%nat) eqn:Hend.
    + destruct (if (timestep_limit X <=? S (length_ l))%nat ||
                   negb (autoreset X)
                then env_reset X w2 else (state, w2)) as [st' w3].
      destruct (get_initial_features X w3) as [[c_g feats] w4].
      injection E as <- <- <- <-. exists [t].
      split; [reflexivity|]. split; [simpl; lia|].
      split; [discriminate|]. intros _. simpl.
      repeat split; try lia.
      apply orb_true_iff in Hend. destruct Hend as [Hterm|Hlim].
      * left. exact Hterm.
      * right. apply Nat.leb_le in Hlim. lia.
    + apply orb_false_iff in Hend. destruct Hend as [Hterm Hlim].
      apply Nat.leb_gt in Hlim.
      apply IH in E. destruct E as (ts & Hr & Hlen & Hgo & Hstop).
      simpl in Hgo, Hstop.
      exists (t :: ts). split; [exact Hr|]. split; [simpl; lia|]. split.
      * intros Hte. destruct (Hgo Hte) as (H1 & H2 & H3 & H4 & H5).
        simpl. repeat split; try assumption; try lia.
      * intros Hte. destruct (Hstop Hte) as (H1 & H2 & H3 & H4 & H5).
        simpl. repeat split; try assumption; try lia.
        destruct H5 as [H5|H5]; [left; exact H5 | right; simpl; lia].
Qed.

(** X8. Every fragment that [env_runner] yields has at most
    [num_local_steps] steps, at least one when [num_local_steps >= 1], and
    all its sequences of one length; a fragment that is shorter than
    [num_local_steps], or terminal, has both bootstraps [0.0]. *)
Theorem env_runner_fragment_shape :
  forall (num_local_steps : nat) (l : runner_locals) (w : W),
    let rollout := fst (fst (env_runner_next X num_local_steps l w)) in
    exists m,
      steps m rollout /\
      (m <= num_local_steps)%nat /\
      ((1 <= num_local_steps)%nat -> (1 <= m)%nat) /\
      ((m < num_local_steps)%nat ->
       manager_r rollout = 0 /\ worker_r rollout = 0) /\
      (terminal rollout = true ->
       manager_r rollout = 0 /\ worker_r rollout = 0).
Proof.
  intros N l w. unfold env_runner_next.
  destruct (collect X N l PartialRollout_init w) as [[[te l1] r1] w1] eqn:Ec.
  pose proof (collect_spec X _ _ _ _ _ _ _ _ 0%nat Ec eq_refl init_steps)
    as (Em & Ew & Et & _).
  destruct (collect_transitions _ _ _ _ _ _ _ _ Ec)
    as (ts & Hr & Hlen & Hgo & Hstop).
  assert (Hs : steps (length ts) r1).
  { subst r1. destruct (fold_add_fields ts PartialRollout_init)
      as (H1 & H2 & H3 & H4 & H5 & H6 & H7 & _).
    cbv zeta in *. unfold steps.
    rewrite H1, H2, H3, H4, H5, H6, H7. simpl. rewrite !length_map.
    repeat split; reflexivity. }
  simpl in Em, Ew.
  destruct te; simpl.
  - exists (length ts). destruct (Hstop eq_refl) as (H1 & _).
    split; [exact Hs|]. repeat split; try assumption; try lia.
  - destruct (policy_value X (last_state l1) (last_c_g l1) (last_features l1) w1)
      as [[mv wv] w2]. simpl.
    exists (length ts). destruct (Hgo eq_refl) as (H1 & _).
    split; [exact Hs|]. split; [lia|]. split; [lia|]. split; [lia|].
    intros Hterm. apply Et in Hterm. discriminate.
Qed.

(** X9. The counter of the steps of the episode stays below the limit of
    the environment: when it is below [timestep_limit] before a fragment is
    collected, it is below it after. *)
Theorem env_runner_episode_limit :
  forall (num_local_steps : nat) (l : runner_locals) (w : W),
    (length_ l < timestep_limit X)%nat ->
    (length_ (snd (fst (env_runner_next X num_local_steps l w)))
     < timestep_limit X)%nat.
Proof.
  intros N l w Hl. unfold env_runner_next.
  destruct (collect X N l PartialRollout_init w) as [[[te l1] r1] w1] eqn:Ec.
  destruct (collect_transitions _ _ _ _ _ _ _ _ Ec)
    as (ts & Hr & Hlen & Hgo & Hstop).
  destruct te; simpl.
  - destruct (Hstop eq_refl) as (_ & H2 & _). lia.
  - destruct (policy_value X (last_state l1) (last_c_g l1) (last_features l1) w1)
      as [[mv wv] w2]. simpl.
    destruct (Hgo eq_refl) as (_ & H2 & _ & _ & H5).
    destruct N as [|N]; [lia | apply H5; lia].
Qed.

(** X10. The counters the generator keeps across fragments: either the
    episode goes on, and then the step counter has grown by the number of
    steps of the fragment, the running total by its rewards, and the window
    of episode totals is unchanged; or the episode ended with the fragment,
    and then both counters are back to zero, the total of the episode has
    been appended to the window, which keeps its last [30] entries, and
    the bootstraps of the fragment are [0.0].  A window of at most [30]
    entries stays so. *)
Theorem env_runner_counters :
  forall (num_local_steps : nat) (l : runner_locals) (w : W),
    let rollout := fst (fst (env_runner_next X num_local_steps l w)) in
    let l' := snd (fst (env_runner_next X num_local_steps l w)) in
    ((length_ l' = (length_ l + length (rewards rollout))%nat /\
      rewards_ l' = fold_left Rplus (rewards rollout) (rewards_ l) /\
      reward_list l' = reward_list l /\
      length (rewards rollout) = num_local_steps) \/
     (length_ l' = 0%nat /\
      rewards_ l' = 0 /\
      reward_list l' =
        deque_append 30 (reward_list l)
          (fold_left Rplus (rewards rollout) (rewards_ l)) /\
      manager_r rollout = 0 /\ worker_r rollout = 0)) /\
    ((length (reward_list l) <= 30)%nat ->
     (length (reward_list l') <= 30)%nat).
Proof.
  intros N l w. unfold env_runner_next.
  destruct (collect X N l PartialRollout_init w) as [[[te l1] r1] w1] eqn:Ec.
  pose proof (collect_spec X _ _ _ _ _ _ _ _ 0%nat Ec eq_refl init_steps)
    as (Em & Ew & _).
  destruct (collect_transitions _ _ _ _ _ _ _ _ Ec)
    as (ts & Hr & Hlen & Hgo & Hstop).
  assert (Hrw : rewards r1 = map t_reward ts).
  { subst r1. destruct (fold_add_fields ts PartialRollout_init)
      as (_ & _ & H3 & _). exact H3. }
  simpl in Em, Ew.
  destruct te; simpl.
  - destruct (Hstop eq_refl) as (H1 & H2 & H3 & H4 & _).
    rewrite Hrw. split.
    + right. repeat split; assumption.
    + intros _. rewrite H4, deque_append_length. lia.
  - destruct (policy_value X (last_state l1) (last_c_g l1) (last_features l1) w1)
      as [[mv wv] w2]. simpl.
    destruct (Hgo eq_refl) as (H1 & H2 & H3 & H4 & _).
    rewrite Hrw, length_map. split.
    + left. repeat split; try assumption; lia.
    + rewrite H4. exact (fun H => H).
Qed.

End EnvRunnerCounters.

(** The counter of [toy_externals], limit [3], after a fragment of two
    steps. *)
Lemma env_runner_episode_limit_witness :
  (length_ (snd (fst (env_runner_next toy_externals 2 toy_locals 0%nat)))
   < timestep_limit toy_externals)%nat.
Proof.
  apply (env_runner_episode_limit toy_externals 2 toy_locals 0%nat).
  simpl. lia.
Defined.

(** ** The queue between the threads: order, and a runner that has died *)

Lemma pull_step_items pc q pc' q' ops :
  pull_step pc q = Some (pc', q', ops) ->
  Queue.items q = removed_items ops ++ Queue.items q'.
Proof.
  destruct q as [mx items].
  unfold pull_step, Queue.get_nowait, Queue.try_get. simpl.
  destruct pc as [since|rollout|rollout|e]; try discriminate.
  - destruct items as [|item rest]; [discriminate|].
    intros E. injection E as <- <- <-. reflexivity.
  - destruct (terminal rollout) eqn:Ht; simpl.
    + intros E. injection E as <- <- <-. reflexivity.
    + destruct items as [|item rest].
      * intros E. injection E as <- <- <-. reflexivity.
      * unfold extend. rewrite Ht.
        intros E. injection E as <- <- <-. reflexivity.
Qed.

Lemma step_fifo l st st' :
  step l st = Some st' ->
  Queue.items (queue st) ++ step_puts l st =
  step_gets l st ++ Queue.items (queue st').
Proof.
  intros E. destruct l as [dt|item| | | | |].
  - unfold step in E. destruct (Rle_dec 0 dt); [|discriminate].
    injection E as <-. simpl. apply app_nil_r.
  - unfold step in E. destruct (runner st) eqn:Hr; try discriminate.
    assert (Hq : queue st' = queue st)
      by (destruct (optimizer st); injection E as <-; reflexivity).
    rewrite Hq. unfold step_puts. simpl. apply app_nil_r.
  - unfold step in E. unfold step_puts, step_gets.
    destruct (runner st) as [|item since|e]; try discriminate.
    destruct (Queue.try_put item (queue st)) as [q'|] eqn:Hp;
      [|destruct (optimizer st); discriminate].
    assert (Hq : queue st' = q')
      by (destruct (optimizer st); injection E as <-; reflexivity).
    rewrite Hq. unfold Queue.try_put in Hp.
    destruct (Queue.full (queue st)); [discriminate|].
    injection Hp as <-. reflexivity.
  - unfold step in E. destruct (runner st) as [|item since|e] eqn:Hr;
      try discriminate.
    destruct (Queue.full (queue st));
      [|destruct (optimizer st); discriminate].
    destruct (Rle_dec (since + put_timeout) (now st));
      [|destruct (optimizer st); discriminate].
    assert (Hq : queue st' = queue st)
      by (destruct (optimizer st); injection E as <-; reflexivity).
    rewrite Hq. unfold step_puts. simpl. apply app_nil_r.
  - rewrite step_optimizer in E. unfold step_gets, step_puts.
    destruct (pull_step (optimizer st) (queue st)) as [[[pc' q'] ops]|] eqn:Hp;
      [|discriminate].
    injection E as <-. simpl. rewrite app_nil_r.
    eapply pull_step_items; eauto.
  - unfold step in E. unfold step_gets, step_puts.
    destruct (optimizer st) as [since|rollout|rollout|e];
      try (destruct (runner st); discriminate).
    destruct (Queue.try_get (queue st)) as [[? ?]|];
      try (destruct (runner st); discriminate).
    destruct (Rle_dec (since + get_timeout) (now st));
      try (destruct (runner st); discriminate).
    assert (Hq : queue st' = queue st)
      by (destruct (runner st); injection E as <-; reflexivity).
    rewrite Hq. simpl. apply app_nil_r.
  - unfold step in E. unfold step_gets, step_puts.
    destruct (optimizer st) as [since|rollout|rollout|e];
      try (destruct (runner st); discriminate).
    assert (Hq : queue st' = queue st)
      by (destruct (runner st); injection E as <-; reflexivity).
    rewrite Hq. simpl. apply app_nil_r.
Qed.

(** X11. The queue hands the fragments on in the order they were put, each
    once: along any schedule, from any state, the fragments that were in
    the queue followed by those the runner has put are the fragments the
    optimizer has removed followed by those still in the queue. *)
Theorem queue_is_fifo :
  forall (sched : list label) (st : system),
    Queue.items (queue st) ++ put_history sched st =
    get_history sched st ++ Queue.items (queue (exec sched st)).
Proof.
  induction sched as [|l sched IH]; intros st; simpl.
  - apply app_nil_r.
  - destruct (step l st) as [st'|] eqn:E; [|apply IH].
    rewrite app_assoc, (step_fifo _ _ _ E), <- !app_assoc, IH.
    reflexivity.
Qed.

Lemma step_dead l st st' e :
  runner st = RunDead e ->
  step l st = Some st' ->
  runner st' = RunDead e /\ yielded st' = yielded st /\
  step_puts l st = [] /\
  (Queue.qsize (queue st') <= Queue.qsize (queue st))%nat.
Proof.
  intros Hr E. unfold step_puts. rewrite Hr.
  destruct l as [dt|item| | | | |]; unfold step in E; rewrite Hr in E.
  - destruct (Rle_dec 0 dt); [|discriminate]. injection E as <-. simpl.
    auto.
  - destruct (optimizer st); discriminate.
  - destruct (optimizer st); discriminate.
  - destruct (optimizer st); discriminate.
  - destruct (pull_step (optimizer st) (queue st)) as [[[pc' q'] ops]|] eqn:Hs;
      [|discriminate].
    injection E as <-. simpl. apply pull_step_books in Hs.
    repeat split; auto. lia.
  - destruct (optimizer st); try discriminate.
    destruct (Queue.try_get (queue st)) as [[? ?]|]; [discriminate|].
    destruct (Rle_dec (since + get_timeout) (now st)); [|discriminate].
    injection E as <-. simpl. auto.
  - destruct (optimizer st); try discriminate.
    injection E as <-. simpl. auto.
Qed.

(** X12. An exception that has left [_run] ends the runner for good: from
    then on, under any schedule, it stays ended, the generator yields no
    further fragment, nothing is put into the queue, and the queue only
    shrinks. *)
Theorem runner_death_is_final :
  forall (sched : list label) (st : system) (e : exn),
    runner st = RunDead e ->
    runner (exec sched st) = RunDead e /\
    yielded (exec sched st) = yielded st /\
    put_history sched st = [] /\
    (Queue.qsize (queue (exec sched st)) <= Queue.qsize (queue st))%nat.
Proof.
  induction sched as [|l sched IH]; intros st e Hr; simpl.
  - auto.
  - destruct (step l st) as [st'|] eqn:E; [|apply IH; exact Hr].
    destruct (step_dead _ _ _ _ Hr E) as (Hr' & Hy & Hp & Hq).
    destruct (IH st' e Hr') as (H1 & H2 & H3 & H4).
    rewrite Hp, H3. repeat split; try assumption; try congruence; lia.
Qed.

(** The runner has died with two fragments in the queue; the optimizer
    takes one of them. *)
Lemma runner_death_is_final_witness :
  let st := mkSystem (Queue.mk 5 [fragment_open; fragment_closed])
              (RunDead Full) (PullGet 0) 0 [] 3 0 1 in
  let sched := [RunnerYield fragment_open; RunnerPut; OptimizerStep] in
  runner (exec sched st) = RunDead Full /\
  yielded (exec sched st) = yielded st /\
  put_history sched st = [] /\
  (Queue.qsize (queue (exec sched st)) <= Queue.qsize (queue st))%nat.
Proof.
  apply (runner_death_is_final
           [RunnerYield fragment_open; RunnerPut; OptimizerStep]
           (mkSystem (Queue.mk 5 [fragment_open; fragment_closed])
              (RunDead Full) (PullGet 0) 0 [] 3 0 1) Full).
  reflexivity.
Defined.

Lemma step_starved l st st' e since :
  runner st = RunDead e ->
  Queue.items (queue st) = [] ->
  optimizer st = PullGet since \/ optimizer st = PullRaised Empty ->
  step l st = Some st' ->
  runner st' = RunDead e /\ Queue.items (queue st') = [] /\
  (optimizer st' = PullGet since \/ optimizer st' = PullRaised Empty) /\
  (optimizer st = PullGet since -> optimizer st' = PullRaised Empty ->
   since + get_timeout <= now st').
Proof.
  intros Hr Hq Ho E. unfold step in E. rewrite Hr in E.
  destruct l as [dt|item| | | | |].
  - destruct (Rle_dec 0 dt); [|discriminate]. injection E as <-. simpl.
    repeat split; auto. intros H1 H2. rewrite H1 in H2. discriminate.
  - destruct (optimizer st); discriminate.
  - destruct (optimizer st); discriminate.
  - destruct (optimizer st); discriminate.
  - unfold pull_step, Queue.try_get in E. rewrite Hq in E.
    destruct Ho as [Ho|Ho]; rewrite Ho in E; discriminate.
  - unfold Queue.try_get in E. rewrite Hq in E.
    destruct Ho as [Ho|Ho]; rewrite Ho in E; [|discriminate].
    destruct (Rle_dec (since + get_timeout) (now st)); [|discriminate].
    injection E as <-. simpl. auto.
  - destruct Ho as [Ho|Ho]; rewrite Ho in E; discriminate.
Qed.

Lemma step_clock l st st' : step l st = Some st' -> now st <= now st'.
Proof.
  intros E. unfold step in E.
  destruct l as [dt|item| | | | |].
  - destruct (Rle_dec 0 dt); [|discriminate]. injection E as <-. simpl. lra.
  - destruct (runner st); try discriminate.
    destruct (optimizer st); injection E as <-; simpl; lra.
  - destruct (runner st) as [|item since|e]; try discriminate.
    destruct (Queue.try_put item (queue st));
      [|destruct (optimizer st); discriminate].
    destruct (optimizer st); injection E as <-; simpl; lra.
  - destruct (runner st) as [|item since|e]; try discriminate.
    destruct (Queue.full (queue st));
      [|destruct (optimizer st); discriminate].
    destruct (Rle_dec (since + put_timeout) (now st));
      [|destruct (optimizer st); discriminate].
    destruct (optimizer st); injection E as <-; simpl; lra.
  - fold (step OptimizerStep st) in E. rewrite step_optimizer in E.
    destruct (pull_step (optimizer st) (queue st)) as [[[pc' q'] ops]|];
      [|discriminate].
    injection E as <-. simpl. lra.
  - destruct (optimizer st) as [since|rollout|rollout|e];
      try (destruct (runner st); discriminate).
    destruct (Queue.try_get (queue st)) as [[? ?]|];
      try (destruct (runner st); discriminate).
    destruct (Rle_dec (since + get_timeout) (now st));
      try (destruct (runner st); discriminate).
    destruct (runner st); injection E as <-; simpl; lra.
  - destruct (optimizer st) as [since|rollout|rollout|e];
      try (destruct (runner st); discriminate).
    destruct (runner st); injection E as <-; simpl; lra.
Qed.

(** X13. A runner that has died starves the optimizer: when the runner has
    ended and the queue is empty, a call of [pull_batch_from_queue] that
    waits in its blocking [get] can do nothing but go on waiting or raise
    [Empty], and it raises no sooner than [600] seconds after it entered
    the [get]. *)
Theorem dead_runner_starves_optimizer :
  forall (sched : list label) (st : system) (e : exn) (since : R),
    runner st = RunDead e ->
    Queue.items (queue st) = [] ->
    optimizer st = PullGet since ->
    optimizer (exec sched st) = PullGet since \/
    (optimizer (exec sched st) = PullRaised Empty /\
     since + 600 <= now (exec sched st)).
Proof.
  intros sched st e since Hr Hq Ho.
  assert (H : forall sched st,
             runner st = RunDead e ->
             Queue.items (queue st) = [] ->
             optimizer st = PullGet since \/
             (optimizer st = PullRaised Empty /\
              since + get_timeout <= now st) ->
             optimizer (exec sched st) = PullGet since \/
             (optimizer (exec sched st) = PullRaised Empty /\
              since + get_timeout <= now (exec sched st))).
  { clear. induction sched as [|l sched IH]; intros st Hr Hq Ho; simpl.
    - exact Ho.
    - destruct (step l st) as [st'|] eqn:E; [|apply IH; assumption].
      assert (Ho' : optimizer st = PullGet since \/
                    optimizer st = PullRaised Empty) by tauto.
      destruct (step_starved _ _ _ _ _ Hr Hq Ho' E) as (H1 & H2 & H3 & H4).
      apply IH; try assumption.
      destruct H3 as [H3|H3]; [left; exact H3|]. right. split; [exact H3|].
      destruct Ho as [Ho|[Ho Ht]].
      + apply H4; assumption.
      + pose proof (step_clock _ _ _ E). lra. }
  apply H; auto.
Qed.

(** The runner has died, the queue is empty, and ten minutes pass. *)
Lemma dead_runner_starves_optimizer_witness :
  let st := mkSystem RunnerThread_queue (RunDead Full) (PullGet 0) 0 [] 6 5 1 in
  let sched := [Tick 600; OptimizerStep; OptimizerGetTimeout] in
  optimizer (exec sched st) = PullGet 0 \/
  (optimizer (exec sched st) = PullRaised Empty /\
   0 + 600 <= now (exec sched st)).
Proof.
  apply (dead_runner_starves_optimizer
           [Tick 600; OptimizerStep; OptimizerGetTimeout]
           (mkSystem RunnerThread_queue (RunDead Full) (PullGet 0) 0 [] 6 5 1)
           Full 0);
    reflexivity.
Defined.

(** ** The action that env_runner takes *)

Lemma argmax_from_spec : forall (x pre : ndarray) (best : R) (besti : nat),
  (besti < length pre)%nat ->
  nth besti pre 0 = best ->
  (forall j, (j < length pre)%nat -> nth j pre 0 <= best) ->
  (forall j, (j < besti)%nat -> nth j pre 0 < best) ->
  (argmax_from best besti (length pre) x < length (pre ++ x))%nat /\
  (forall j, (j < length (pre ++ x))%nat ->
             nth j (pre ++ x) 0 <=
             nth (argmax_from best besti (length pre) x) (pre ++ x) 0) /\
  (forall j, (j < argmax_from best besti (length pre) x)%nat ->
             nth j (pre ++ x) 0 <
             nth (argmax_from best besti (length pre) x) (pre ++ x) 0).
Proof.
  induction x as [|xi x IH]; intros pre best besti Hb Hn Hle Hlt.
  - simpl. rewrite app_nil_r, Hn. auto.
  - simpl argmax_from.
    replace (pre ++ xi :: x) with ((pre ++ [xi]) ++ x)
      by (rewrite <- app_assoc; reflexivity).
    replace (S (length pre)) with (length (pre ++ [xi]))
      by (rewrite length_app; simpl; lia).
    assert (Hxi : nth (length pre) (pre ++ [xi]) 0 = xi)
      by (rewrite app_nth2, Nat.sub_diag by lia; reflexivity).
    destruct (Rlt_dec best xi) as [Hlt'|Hge].
    + apply IH.
      * rewrite length_app. simpl. lia.
      * exact Hxi.
      * intros j Hj. rewrite length_app in Hj. simpl in Hj.
        destruct (Nat.eq_dec j (length pre)) as [->|Hne].
        -- rewrite Hxi. lra.
        -- rewrite app_nth1 by lia. specialize (Hle j ltac:(lia)). lra.
      * intros j Hj. rewrite app_nth1 by lia. specialize (Hle j Hj). lra.
    + apply IH.
      * rewrite length_app. simpl. lia.
      * rewrite app_nth1 by lia. exact Hn.
      * intros j Hj. rewrite length_app in Hj. simpl in Hj.
        destruct (Nat.eq_dec j (length pre)) as [->|Hne].
        -- rewrite Hxi. lra.
        -- rewrite app_nth1 by lia. apply Hle. lia.
      * intros j Hj. rewrite app_nth1 by lia. apply Hlt. exact Hj.
Qed.

(** X14. The action index that [env_runner] passes to [env.step] is a valid
    index of the action vector, its entry is the largest of the vector, and
    it is the first index with that entry. *)
Theorem argmax_first_maximum :
  forall x : ndarray,
    x <> [] ->
    (argmax x < length x)%nat /\
    (forall j, (j < length x)%nat -> nth j x 0 <= nth (argmax x) x 0) /\
    (forall j, (j < argmax x)%nat -> nth j x 0 < nth (argmax x) x 0).
Proof.
  intros [|x0 x] Hne; [congruence|].
  unfold argmax.
  apply (argmax_from_spec x [x0] x0 0%nat).
  - simpl. lia.
  - reflexivity.
  - intros j Hj. simpl in Hj. destruct j; [simpl; lra | lia].
  - intros j Hj. lia.
Qed.

(** The action vector of [toy_externals]. *)
Lemma argmax_first_maximum_witness :
  (argmax toy_action < length toy_action)%nat /\
  (forall j, (j < length toy_action)%nat ->
             nth j toy_action 0 <= nth (argmax toy_action) toy_action 0) /\
  (forall j, (j < argmax toy_action)%nat ->
             nth j toy_action 0 < nth (argmax toy_action) toy_action 0).
Proof.
  apply (argmax_first_maximum toy_action). discriminate.
Defined.

(** ** train *)

Lemma pull_batch_nonempty q first rest0 :
  Queue.items q = first :: rest0 ->
  exists others rest rollout,
    pull_batch_from_queue q = (Returns rollout, Queue.mk (Queue.maxsize q) rest) /\
    rest0 = others ++ rest /\
    merge first others = Returns rollout.
Proof.
  intros Hi.
  destruct (drain_spec rest0 first) as (others & rest & r' & Hd & Hr & Hm & _).
  exists others, rest, r'.
  unfold pull_batch_from_queue, Queue.try_get. rewrite Hi.
  cbn [Queue.items]. rewrite Hd. auto.
Qed.


(** ** Terminal rollouts *)

Lemma env_runner_take_from {W : Type} (X : externals W) num_local_steps :
  forall k l w,
    Forall (from_env_runner X num_local_steps)
      (env_runner_take X num_local_steps k l w).
Proof.
  induction k as [|k IH]; intros l w; simpl; [constructor|].
  destruct (env_runner_next X num_local_steps l w) as [[rollout l1] w1] eqn:E.
  constructor; [|apply IH].
  exists l, w. rewrite E. reflexivity.
Qed.

Lemma from_env_runner_terminal_zero {W : Type} (X : externals W)
    num_local_steps f :
  from_env_runner X num_local_steps f -> terminal_zero f.
Proof.
  intros (l & w & <-).
  destruct (env_runner_next X num_local_steps l w) as [[rollout l1] w1] eqn:E.
  apply (env_runner_next_spec X _ _ _ _ _ _ E).
Qed.

(** C2. A terminal rollout with [n >= 1] steps that reaches
    [process_rollout] has the last element of each return stream equal to
    its last reward, its bootstraps being [0.0]: this holds of every rollout
    that [pull_batch_from_queue] returns from a queue of fragments that
    [env_runner] yielded, whatever the environment and the policy are.
    ([process_rollout] does not read the flag; [env_runner] writes the
    bootstraps only into a fragment that did not end an episode, and
    [extend] copies them together with the flag.) *)
Theorem process_rollout_terminal_last :
  forall (W : Type) (X : externals W) (num_local_steps : nat)
         (q q' : Queue.t) (rollout : PartialRollout)
         (manager_gamma worker_gamma lambda_ : R),
    Forall (from_env_runner X num_local_steps) (Queue.items q) ->
    pull_batch_from_queue q = (Returns rollout, q') ->
    terminal rollout = true ->
    (1 <= length (rewards rollout))%nat ->
    manager_r rollout = 0 /\ worker_r rollout = 0 /\
    exists b,
      process_rollout rollout manager_gamma worker_gamma lambda_ = Returns b /\
      nth (length (rewards rollout) - 1) (Batch.manager_returns b) 0 =
        nth (length (rewards rollout) - 1) (rewards rollout) 0 /\
      nth (length (rewards rollout) - 1) (Batch.worker_returns b) 0 =
        nth (length (rewards rollout) - 1) (rewards rollout) 0 /\
      last (Batch.manager_returns b) 0 = last (rewards rollout) 0 /\
      last (Batch.worker_returns b) 0 = last (rewards rollout) 0.
Proof.
  intros W X N q q' rollout gm gw lam HF Hp Ht Hn.
  assert (Hz : terminal_zero rollout).
  { destruct (Queue.items q) as [|first rest0] eqn:Hi.
    - unfold pull_batch_from_queue, Queue.try_get in Hp. rewrite Hi in Hp.
      discriminate.
    - destruct (pull_batch_nonempty q first rest0 Hi)
        as (others & rest & r' & Hp' & Hr & Hm).
      rewrite Hp in Hp'. injection Hp' as -> _.
      apply (merge_terminal_zero others first); [|exact Hm].
      rewrite Hr in HF.
      change (first :: others ++ rest) with ((first :: others) ++ rest) in HF.
      apply Forall_app in HF. destruct HF as [HF _].
      eapply Forall_impl; [|exact HF].
      intros f. apply from_env_runner_terminal_zero. }
  destruct (Hz Ht) as [Hm Hw].
  split; [exact Hm|]. split; [exact Hw|].
  apply zero_bootstrap_last_return; assumption.
Qed.

(** The call on [episode_queue] merges the fragment cut by the step cap,
    whose bootstraps are [4], with the fragment that ends the episode: a
    terminal rollout of three steps. *)
Lemma process_rollout_terminal_last_witness :
  let rollout :=
    match fst (pull_batch_from_queue episode_queue) with
    | Returns r => r
    | Raises _ => PartialRollout_init
    end in
  (length (rewards rollout) = 3%nat /\ terminal rollout = true) /\
  manager_r rollout = 0 /\ worker_r rollout = 0 /\
  exists b,
    process_rollout rollout (1 / 2) (9 / 10) 1 = Returns b /\
    nth (length (rewards rollout) - 1) (Batch.manager_returns b) 0 =
      nth (length (rewards rollout) - 1) (rewards rollout) 0 /\
    nth (length (rewards rollout) - 1) (Batch.worker_returns b) 0 =
      nth (length (rewards rollout) - 1) (rewards rollout) 0 /\
    last (Batch.manager_returns b) 0 = last (rewards rollout) 0 /\
    last (Batch.worker_returns b) 0 = last (rewards rollout) 0.
Proof.
  cbv zeta. split; [split; reflexivity|].
  apply (process_rollout_terminal_last nat episode_externals 2
           episode_queue (snd (pull_batch_from_queue episode_queue))).
  - apply env_runner_take_from.
  - reflexivity.
  - reflexivity.
  - simpl. lia.
Defined.
